(** * Load generator engine (package wfe): a shallow embedding

    The engine drives an ACME service with simulated accounts.  This file
    embeds the parts of [State] and its methods that the specification
    talks about: the weighted action selector ([weightedCall], [sendCall]),
    the nonce pool ([Nonce], [addNonce]), the persistence codec
    ([Snapshot], [Restore]), the run-plan executor ([executePlan]), the
    warmup worker pool ([warmup]) and the top-level [Run].

    Go values are modelled as follows: [int] and [int64] are [Z] (with the
    64-bit wrap-around written out where the code adds), slices are lists,
    [map[int]T] is a [gmap Z T], a possibly-nil pointer or func value is an
    [option], an [error] result is a sum, and a run-time panic is the
    [Panics] outcome. *)

From Stdlib Require Import ZArith QArith.
From stdpp Require Import base gmap list list_numbers strings.

Open Scope Z_scope.

(** ** Go runtime conventions *)

(** A call either returns or panics (nil dereference, call of a nil func
    value, integer division by zero, invalid argument to a library call). *)
Inductive outcome (A : Type) : Type :=
| Returns (a : A)
| Panics (why : string).
Arguments Returns {A} a.
Arguments Panics {A} why.

#[global] Instance outcome_eq_dec {A} `{EqDecision A} : EqDecision (outcome A).
Proof. solve_decision. Defined.

Definition error : Type := string.

Module GoInt.
Definition min_int : Z := - 2 ^ 63.
Definition max_int : Z := 2 ^ 63 - 1.

(** Two's-complement reduction of a mathematical integer to [int]. *)
Definition wrap (z : Z) : Z := (z + 2 ^ 63) `mod` 2 ^ 64 - 2 ^ 63.

Definition add (a b : Z) : Z := wrap (a + b).

(** [mrand.Intn(n)]: panics unless [n > 0], otherwise a value of
    [0 .. n-1]; [r] is the generator's raw draw. *)
Definition Intn (r n : Z) : outcome Z :=
  if decide (n ≤ 0) then Panics "invalid argument to Intn"
  else Returns (r `mod` n).
End GoInt.


(** ** Weighted selection *)

Record probabilityProfile (A : Type) : Type := ProbabilityProfile {
  prob : Z;
  action : A;
}.
Arguments ProbabilityProfile {A} prob action.
Arguments prob {A} _.
Arguments action {A} _.

Section WeightedCall.
Context {A : Type}.

(** The inner loop: [for i := 0; i < pp.prob; i++ { choices[i+n] = pp.action }]. *)
Definition fill_choices (choices : gmap Z A) (n : Z) (pp : probabilityProfile A)
  : gmap Z A :=
  foldl (λ ch i, <[GoInt.add i n := action pp]> ch) choices (seqZ 0 (prob pp)).

(** The outer loop, from an arbitrary intermediate [(choices, n)]. *)
Definition build_from (acc : gmap Z A * Z) (setup : list (probabilityProfile A))
  : gmap Z A * Z :=
  foldl (λ acc pp, (fill_choices acc.1 acc.2 pp, GoInt.add acc.2 (prob pp)))
        acc setup.

Definition build_choices (setup : list (probabilityProfile A)) : gmap Z A * Z :=
  build_from (∅, 0) setup.

(** [weightedCall]: [None] is the nil func value, which is also what a
    Go map yields for an absent key. *)
Definition weightedCall (setup : list (probabilityProfile A)) (r : Z)
  : outcome (option A) :=
  let choices := (build_choices setup).1 in
  let n := (build_choices setup).2 in
  if decide (size choices = 0%nat) then Returns None
  else match GoInt.Intn r n with
       | Panics why => Panics why
       | Returns k => Returns (choices !! k)
       end.

(** The specification's reading of the draw: the entry whose
    cumulative-weight interval contains [k]. *)
Fixpoint interval_pick (setup : list (probabilityProfile A)) (k : Z) : option A :=
  match setup with
  | [] => None
  | pp :: rest =>
      if decide (0 ≤ k < prob pp) then Some (action pp)
      else interval_pick rest (k - prob pp)
  end.

Definition total_weight (setup : list (probabilityProfile A)) : Z :=
  foldr (λ pp acc, prob pp + acc) 0 setup.

Definition nonneg_weights (setup : list (probabilityProfile A)) : Prop :=
  Forall (λ pp, 0 ≤ prob pp) setup.

Context `{EqDecision A}.

(** Number of indices of the weight-expanded space that select [a]. *)
Definition hits (setup : list (probabilityProfile A)) (a : A) : nat :=
  length (filter (λ k, weightedCall setup k = Returns (Some a))
                 (seqZ 0 (total_weight setup))).

(** Sum of the weights of the entries whose action is [a]. *)
Definition weight_of (a : A) (setup : list (probabilityProfile A)) : Z :=
  foldr (λ pp acc, (if decide (action pp = a) then prob pp else 0) + acc) 0 setup.

(** Probability of [a] under a uniform draw of the index. *)
Definition selection_probability (setup : list (probabilityProfile A)) (a : A) : Q :=
  Qmake (Z.of_nat (hits setup a)) 1 / Qmake (total_weight setup) 1.
End WeightedCall.


(** ** Data model *)

Definition bytes : Type := list Byte.byte.

(** [rsa.PrivateKey]: modulus, public exponent, private exponent and prime
    factors.  The [Precomputed] cache is a function of these fields, so
    [key.Precompute()] leaves the modelled value unchanged. *)
Record PrivateKey : Type := {
  key_N : Z;
  key_E : Z;
  key_D : Z;
  key_Primes : list Z;
}.

#[global] Instance PrivateKey_eq_dec : EqDecision PrivateKey.
Proof. solve_decision. Defined.

(** [jose.Signer] as built by [jose.NewSigner(jose.RS256, key)]: the key it
    signs with, and whether a nonce source has been attached. *)
Record Signer : Type := {
  signer_key : PrivateKey;
  signer_nonce_source : bool;
}.

#[global] Instance Signer_eq_dec : EqDecision Signer.
Proof. solve_decision. Defined.

Definition SetNonceSource (sg : Signer) : Signer :=
  {| signer_key := signer_key sg; signer_nonce_source := true |}.

Record registration : Type := {
  key : PrivateKey;
  signer : Signer;
  auths : list string;
  certs : list string;
}.

#[global] Instance registration_eq_dec : EqDecision registration.
Proof. solve_decision. Defined.

(** [RatePeriod]: durations are nanoseconds, as [time.Duration]. *)
Record RatePeriod : Type := {
  For : Z;
  Rate : Z;
}.

(** [os.Process], identified by its pid. *)
Record Process : Type := { Pid : Z }.

(** The fields of [latency.Map] that the engine writes; [None] is the zero
    [time.Time]. *)
Record LatencyMap : Type := {
  Started : option Z;
  Stopped : option Z;
  samples : list (string * string);
}.

Record State : Type := {
  regs : list registration;
  maxRegs : Z;
  apiBase : string;
  warmupRegs : Z;
  warmupWorkers : Z;
  noncePool : list string;
  throughput : Z;
  challRPCAddr : string;
  callLatency : LatencyMap;
  runtime : Z;
  challSrvProc : option Process;
  runPlan : list RatePeriod;
}.

Definition set_regs (s : State) (v : list registration) : State :=
  {| regs := v; maxRegs := maxRegs s; apiBase := apiBase s;
     warmupRegs := warmupRegs s; warmupWorkers := warmupWorkers s;
     noncePool := noncePool s; throughput := throughput s;
     challRPCAddr := challRPCAddr s; callLatency := callLatency s;
     runtime := runtime s; challSrvProc := challSrvProc s;
     runPlan := runPlan s |}.

Definition set_noncePool (s : State) (v : list string) : State :=
  {| regs := regs s; maxRegs := maxRegs s; apiBase := apiBase s;
     warmupRegs := warmupRegs s; warmupWorkers := warmupWorkers s;
     noncePool := v; throughput := throughput s;
     challRPCAddr := challRPCAddr s; callLatency := callLatency s;
     runtime := runtime s; challSrvProc := challSrvProc s;
     runPlan := runPlan s |}.

Definition set_throughput (s : State) (v : Z) : State :=
  {| regs := regs s; maxRegs := maxRegs s; apiBase := apiBase s;
     warmupRegs := warmupRegs s; warmupWorkers := warmupWorkers s;
     noncePool := noncePool s; throughput := v;
     challRPCAddr := challRPCAddr s; callLatency := callLatency s;
     runtime := runtime s; challSrvProc := challSrvProc s;
     runPlan := runPlan s |}.

Definition set_callLatency (s : State) (v : LatencyMap) : State :=
  {| regs := regs s; maxRegs := maxRegs s; apiBase := apiBase s;
     warmupRegs := warmupRegs s; warmupWorkers := warmupWorkers s;
     noncePool := noncePool s; throughput := throughput s;
     challRPCAddr := challRPCAddr s; callLatency := v;
     runtime := runtime s; challSrvProc := challSrvProc s;
     runPlan := runPlan s |}.

Definition set_challSrvProc (s : State) (v : option Process) : State :=
  {| regs := regs s; maxRegs := maxRegs s; apiBase := apiBase s;
     warmupRegs := warmupRegs s; warmupWorkers := warmupWorkers s;
     noncePool := noncePool s; throughput := throughput s;
     challRPCAddr := challRPCAddr s; callLatency := callLatency s;
     runtime := runtime s; challSrvProc := v;
     runPlan := runPlan s |}.

(** [New]: the state as constructed before a run; the fields not listed in
    the composite literal take their zero values (no registrations, empty
    nonce pool, nil process handle). *)
Definition New (rpcAddr api : string) (rate : Z) (run_for : Z)
    (plan : list RatePeriod) (maxRegs' warmupRegs' warmupWorkers' : Z) : State :=
  {| regs := []; maxRegs := maxRegs'; apiBase := api;
     warmupRegs := warmupRegs'; warmupWorkers := warmupWorkers';
     noncePool := []; throughput := rate;
     challRPCAddr := rpcAddr;
     callLatency := {| Started := None; Stopped := None; samples := [] |};
     runtime := run_for; challSrvProc := None;
     runPlan := plan |}.

Definition population (s : State) : Z := Z.of_nat (length (regs s)).

(** ** Registration store *)

Definition addReg (s : State) (reg : registration) : State :=
  set_regs s (regs s ++ [reg]).

(** [getReg]: a uniformly drawn registration, or [None] (found = false)
    when there is none. *)
Definition getReg (s : State) (r : Z) : outcome (option registration) :=
  let regsLength := population s in
  if decide (regsLength = 0) then Returns None
  else match GoInt.Intn r regsLength with
       | Panics why => Panics why
       | Returns i =>
           match regs s !! Z.to_nat i with
           | Some reg => Returns (Some reg)
           | None => Panics "index out of range"
           end
       end.

(** ** The call sender *)

(** The four method values that [sendCall] can put in its action list. *)
Inductive method : Type :=
| newRegistration
| newAuthorization
| newCertificate
| revokeCertificate.

#[global] Instance method_eq_dec : EqDecision method.
Proof. solve_decision. Defined.

(** The list [sendCall] builds before drawing: [reg] is what [getReg]
    returned. *)
Definition actionList (s : State) (reg : option registration)
  : list (probabilityProfile method) :=
  (if decide (maxRegs s = 0 ∨ population s < maxRegs s)
   then [ProbabilityProfile 1 newRegistration] else [])
  ++ match reg with
     | Some reg =>
         [ProbabilityProfile 3 newAuthorization]
         ++ (if decide (0 < length (auths reg))%nat
             then [ProbabilityProfile 4 newCertificate] else [])
         ++ (if decide (0 < length (certs reg))%nat
             then [ProbabilityProfile 2 revokeCertificate] else [])
     | None => []
     end.

(** [sendCall] up to the point where the drawn method is invoked on [reg]:
    the result is the call that is made.  Invoking the nil func value that
    [weightedCall] returns for an empty list is a run-time panic. *)
Definition sendCall (s : State) (r_reg r_act : Z)
  : outcome (method * option registration) :=
  match getReg s r_reg with
  | Panics why => Panics why
  | Returns reg =>
      match weightedCall (actionList s reg) r_act with
      | Panics why => Panics why
      | Returns None => Panics "invalid memory address or nil pointer dereference"
      | Returns (Some call) => Returns (call, reg)
      end
  end.

(** The list when every action is eligible. *)
Definition all_eligible : list (probabilityProfile method) :=
  [ProbabilityProfile 1 newRegistration; ProbabilityProfile 3 newAuthorization;
   ProbabilityProfile 4 newCertificate; ProbabilityProfile 2 revokeCertificate].

(** ** Results and observable events *)

(** A Go [(value, error)] pair of which exactly one side is meaningful. *)
Inductive result (A : Type) : Type :=
| Ok (a : A)
| Err (err : error).
Arguments Ok {A} a.
Arguments Err {A} err.

(** Concurrent tasks started with a [go] statement in [Run]. *)
Inductive task : Type :=
| TaskExecutePlan
| TaskSendLoop
| TaskSendCall.

(** What the engine does to the outside world, in program order. *)
Inductive event : Type :=
| EvHead (url : string)
| EvStoreThroughput (rate : Z)
| EvLogRate (rate period : Z)
| EvSleep (d : Z)
| EvPrintln (line : string)
| EvWarmup
| EvStartProcess (name : string) (args : list string)
| EvGo (t : task)
| EvWgAdd
| EvStopSignal
| EvWgWait
| EvKill (p : Process)
| EvLogKillError (err : error).

#[global] Instance task_eq_dec : EqDecision task.
Proof. solve_decision. Defined.
#[global] Instance Process_eq_dec : EqDecision Process.
Proof. solve_decision. Defined.
#[global] Instance event_eq_dec : EqDecision event.
Proof. solve_decision. Defined.

(** ** Nonce pool *)

(** Outcome of [s.client.Head(apiBase + "/directory")]: a transport error,
    or a response whose [Replay-Nonce] header reads [replayNonce] (the
    empty string when the header is absent, as [Header.Get] reports it). *)
Inductive HeadResult : Type :=
| HeadError (err : error)
| HeadResponse (replayNonce : string).

Definition latency_Add (m : LatencyMap) (endpoint state : string) : LatencyMap :=
  {| Started := Started m; Stopped := Stopped m;
     samples := samples m ++ [(endpoint, state)] |}.

(** [Nonce]: [probe] is what the directory request yields if it is made. *)
Definition Nonce (s : State) (probe : HeadResult)
  : result string * State * list event :=
  match noncePool s with
  | [] =>
      let url := apiBase s +:+ "/directory" in
      let record state :=
        set_callLatency s (latency_Add (callLatency s) "HEAD /directory" state) in
      match probe with
      | HeadError err => (Err err, record "error", [EvHead url])
      | HeadResponse nonce =>
          if decide (nonce ≠ "") then (Ok nonce, record "good", [EvHead url])
          else (Err "Nonce header not supplied!", record "error", [EvHead url])
      end
  | nonce :: rest => (Ok nonce, set_noncePool s rest, [])
  end.

Definition addNonce (s : State) (nonce : string) : State :=
  set_noncePool s (noncePool s ++ [nonce]).

(** [post], as far as the pool is concerned: [resp] is the response, if
    any, given by its [Replay-Nonce] header. *)
Definition post_nonce (s : State) (resp : option string) : State :=
  match resp with
  | Some newNonce => if decide (newNonce ≠ "") then addNonce s newNonce else s
  | None => s
  end.

(** Successive [Nonce] calls, one per element of [probes]. *)
Fixpoint Nonce_many (s : State) (probes : list HeadResult)
  : list (result string) * State * list event :=
  match probes with
  | [] => ([], s, [])
  | probe :: rest =>
      let '(r, s1, tr1) := Nonce s probe in
      let '(rs, s2, tr2) := Nonce_many s1 rest in
      (r :: rs, s2, tr1 ++ tr2)
  end.

Definition is_probe (ev : event) : bool :=
  match ev with EvHead _ => true | _ => false end.

(** Number of network probes in a trace. *)
Definition probes_in (tr : list event) : nat :=
  length (filter (λ ev, is_probe ev = true) tr).

(** ** Run plan *)

Definition executePlan_over (plan : list RatePeriod) (s : State)
  : State * list event :=
  foldl (λ acc p,
           (set_throughput acc.1 (Rate p),
            acc.2 ++ [EvStoreThroughput (Rate p); EvLogRate (Rate p) (For p);
                      EvSleep (For p)]))
        (s, []) plan.

Definition executePlan (s : State) : State * list event :=
  executePlan_over (runPlan s) s.

(** Reading a trace back: the throughput in effect during each sleep,
    starting from throughput [rate]. *)
Fixpoint rate_during_sleeps (rate : Z) (tr : list event) : list (Z * Z) :=
  match tr with
  | [] => []
  | EvStoreThroughput r :: rest => rate_during_sleeps r rest
  | EvSleep d :: rest => (d, rate) :: rate_during_sleeps rate rest
  | _ :: rest => rate_during_sleeps rate rest
  end.

(** ** Persistence codec *)

Record rawRegistration : Type := {
  Certs : list string;
  RawKey : bytes;
}.

Record snapshot : Type := {
  Registrations : list rawRegistration;
}.

(** The library calls that [Snapshot] and [Restore] go through:
    [crypto/x509], [encoding/json] and [jose.NewSigner(jose.RS256, _)]. *)
Class Codec : Type := {
  MarshalPKCS1PrivateKey : PrivateKey → bytes;
  ParsePKCS1PrivateKey : bytes → result PrivateKey;
  json_Marshal : snapshot → result bytes;
  json_Unmarshal : bytes → result snapshot;
  NewSigner : PrivateKey → result Signer;
}.

(** How a call of [ioutil.WriteFile] ends: the whole document is written,
    or the call fails with an error and the path is left with [remains]. *)
Inductive write_outcome : Type :=
| Written
| WriteFails (err : error) (remains : option bytes).

Section Persistence.
Context `{Codec}.

Definition rawRegistration_of (r : registration) : rawRegistration :=
  {| Certs := certs r; RawKey := MarshalPKCS1PrivateKey (key r) |}.

(** The document built by the loop of [Snapshot]. *)
Definition snapshot_of (s : State) : snapshot :=
  {| Registrations :=
       foldl (λ acc r, acc ++ [rawRegistration_of r]) [] (regs s) |}.

(** What [ioutil.WriteFile] leaves at the path when it fails: the old
    contents, a partial document, or no file. *)
Definition write_failure (fs : gmap string bytes) (filename : string)
    (remains : option bytes) : gmap string bytes :=
  match remains with
  | Some partial => <[filename := partial]> fs
  | None => delete filename fs
  end.

(** [Snapshot]: files are a map from path to contents; [write] is how
    [ioutil.WriteFile] ends, and its error is what [Snapshot] returns. *)
Definition Snapshot (s : State) (fs : gmap string bytes) (filename : string)
    (write : write_outcome)
  : option error * gmap string bytes :=
  match json_Marshal (snapshot_of s) with
  | Err err => (Some err, fs)
  | Ok cont =>
      match write with
      | Written => (None, <[filename := cont]> fs)
      | WriteFails err remains => (Some err, write_failure fs filename remains)
      end
  end.

(** The actor rebuilt from one record, unless the record is skipped. *)
Definition restore_record (r : rawRegistration) : option registration :=
  match ParsePKCS1PrivateKey (RawKey r) with
  | Err _ => None
  | Ok key =>
      match NewSigner key with
      | Err _ => None
      | Ok signer =>
          Some {| key := key; signer := SetNonceSource signer;
                  auths := []; certs := Certs r |}
      end
  end.

(** One iteration of the loop of [Restore]. *)
Definition restore_step (s : State) (r : rawRegistration) : State :=
  match restore_record r with
  | None => s
  | Some reg => set_regs s (regs s ++ [reg])
  end.

Definition Restore (s : State) (fs : gmap string bytes) (filename : string)
  : option error * State :=
  match fs !! filename with
  | None => (Some "open: no such file or directory", s)
  | Some content =>
      match json_Unmarshal content with
      | Err err => (Some err, s)
      | Ok snap => (None, foldl restore_step s (Registrations snap))
      end
  end.
End Persistence.

(** A small self-contained instance of the codec interface, with a
    length-prefixed binary layout in which every length and every key
    component takes one byte.  It is not the production encoding; it
    serves to run [Snapshot] and [Restore] on concrete stores. *)
Module ByteCodec.
Definition byte_of_nat (n : nat) : Byte.byte :=
  default Byte.x00 (Byte.of_N (N.of_nat n)).
Definition nat_of_byte (b : Byte.byte) : nat := N.to_nat (Byte.to_N b).
Definition byte_of_Z (z : Z) : Byte.byte := byte_of_nat (Z.to_nat z).
Definition Z_of_byte (b : Byte.byte) : Z := Z.of_nat (nat_of_byte b).

Definition marshal_key (k : PrivateKey) : bytes :=
  [byte_of_Z (key_N k); byte_of_Z (key_E k); byte_of_Z (key_D k)]
  ++ (byte_of_Z <$> key_Primes k).

Definition parse_key (b : bytes) : result PrivateKey :=
  match b with
  | n :: e :: d :: ps =>
      Ok {| key_N := Z_of_byte n; key_E := Z_of_byte e; key_D := Z_of_byte d;
            key_Primes := Z_of_byte <$> ps |}
  | _ => Err "x509: failed to parse private key"
  end.

Definition put_bytes (b : bytes) : bytes := byte_of_nat (length b) :: b.
Definition put_string (s : string) : bytes := put_bytes (String.list_byte_of_string s).
Definition put_record (r : rawRegistration) : bytes :=
  byte_of_nat (length (Certs r)) :: concat (put_string <$> Certs r)
  ++ put_bytes (RawKey r).
Definition put_snapshot (snap : snapshot) : bytes :=
  byte_of_nat (length (Registrations snap))
  :: concat (put_record <$> Registrations snap).

Definition get_bytes (b : bytes) : option (bytes * bytes) :=
  match b with
  | [] => None
  | n :: rest =>
      if decide (nat_of_byte n ≤ length rest)%nat
      then Some (take (nat_of_byte n) rest, drop (nat_of_byte n) rest)
      else None
  end.

Definition get_string (b : bytes) : option (string * bytes) :=
  match get_bytes b with
  | Some (payload, rest) => Some (String.string_of_list_byte payload, rest)
  | None => None
  end.

Fixpoint get_many {A} (get : bytes → option (A * bytes)) (n : nat) (b : bytes)
  : option (list A * bytes) :=
  match n with
  | O => Some ([], b)
  | S n' =>
      match get b with
      | None => None
      | Some (x, rest) =>
          match get_many get n' rest with
          | None => None
          | Some (xs, rest') => Some (x :: xs, rest')
          end
      end
  end.

Definition get_counted {A} (get : bytes → option (A * bytes)) (b : bytes)
  : option (list A * bytes) :=
  match b with
  | [] => None
  | n :: rest => get_many get (nat_of_byte n) rest
  end.

Definition get_record (b : bytes) : option (rawRegistration * bytes) :=
  match get_counted get_string b with
  | None => None
  | Some (cs, rest) =>
      match get_bytes rest with
      | None => None
      | Some (raw, rest') => Some ({| Certs := cs; RawKey := raw |}, rest')
      end
  end.

Definition get_snapshot (b : bytes) : result snapshot :=
  match get_counted get_record b with
  | Some (rs, []) => Ok {| Registrations := rs |}
  | _ => Err "unexpected end of input"
  end.

#[export] Instance codec : Codec := {|
  MarshalPKCS1PrivateKey := marshal_key;
  ParsePKCS1PrivateKey := parse_key;
  json_Marshal := λ snap, Ok (put_snapshot snap);
  json_Unmarshal := get_snapshot;
  NewSigner := λ k, Ok {| signer_key := k; signer_nonce_source := false |};
|}.

(** A tiny RSA key: 33 = 3 * 11, and 3 * 7 = 1 modulo 20. *)
Definition tiny_key : PrivateKey :=
  {| key_N := 33; key_E := 3; key_D := 7; key_Primes := [3; 11] |}.
End ByteCodec.

(** ** Warmup *)

(** Modelled from the spec: [newRegistration], the account-creation action,
    whose body is not among the sources.  It is an attempt that either
    fails and leaves the store untouched, or registers one new actor
    through [addReg]; [created] is the actor it built, if the attempt
    succeeded. *)
Definition newRegistration_attempt (s : State) (created : option registration)
  : State :=
  match created with
  | Some reg => addReg s reg
  | None => s
  end.

(** Where a warmup worker stands in its loop: about to read the population,
    inside [newRegistration], or past [wg.Done()]. *)
Inductive worker : Type :=
| Checking
| Creating
| Finished.

#[global] Instance worker_eq_dec : EqDecision worker.
Proof. solve_decision. Defined.

Record warm : Type := {
  w_state : State;
  w_workers : list worker;
}.

(** All workers start at the top of their loop. *)
Definition warmup_init (s : State) : warm :=
  {| w_state := s;
     w_workers := replicate (Z.to_nat (warmupWorkers s)) Checking |}.

(** One atomic step of worker [i]: the guarded read of [len(s.regs)], or
    the completion of its [newRegistration] call with outcome [created]. *)
Definition worker_step (w : warm) (i : nat) (created : option registration)
  : warm :=
  match w_workers w !! i with
  | Some Checking =>
      if decide (warmupRegs (w_state w) ≤ population (w_state w))
      then {| w_state := w_state w; w_workers := <[i := Finished]> (w_workers w) |}
      else {| w_state := w_state w; w_workers := <[i := Creating]> (w_workers w) |}
  | Some Creating =>
      {| w_state := newRegistration_attempt (w_state w) created;
         w_workers := <[i := Checking]> (w_workers w) |}
  | _ => w
  end.

(** Number of workers inside [newRegistration]. *)
Definition creating (w : warm) : Z :=
  Z.of_nat (length (filter (λ st, st = Creating) (w_workers w))).

(** [1] for an element that satisfies [P], [0] otherwise. *)
Definition indicator {A} (P : A → Prop) `{!∀ x, Decision (P x)} (x : A) : nat :=
  if decide (P x) then 1%nat else 0%nat.

(** An interleaving of the workers: which worker moves next, and how its
    creation attempt ends if that is the move. *)
Definition schedule : Type := list (nat * option registration).

Definition warmup_exec (w : warm) (sched : schedule) : warm :=
  foldl (λ w mv, worker_step w mv.1 mv.2) w sched.

(** [wg.Wait()] returns once every worker is past [wg.Done()]. *)
Definition all_finished (w : warm) : Prop :=
  Forall (λ st, st = Finished) (w_workers w).

#[global] Instance all_finished_dec w : Decision (all_finished w).
Proof. unfold all_finished. apply _. Defined.

(** [warmup] under a schedule: the state it returns with, or [None] when
    the schedule leaves a worker running (the call has not returned). *)
Definition warmup (s : State) (sched : schedule) : option State :=
  let w := warmup_exec (warmup_init s) sched in
  if decide (all_finished w) then Some (w_state w) else None.

(** What every reachable warmup configuration satisfies, for a warmup
    entered from [s0] with the store below the target. *)
Record warm_inv (s0 : State) (w : warm) : Prop := {
  inv_store : ∃ added, w_state w = set_regs s0 (regs s0 ++ added);
  inv_workers : length (w_workers w) = Z.to_nat (warmupWorkers s0);
  inv_overshoot :
    population (w_state w) + creating w
    ≤ warmupRegs s0 - 1 + Z.of_nat (length (w_workers w));
  inv_finished :
    Finished ∈ w_workers w → warmupRegs s0 ≤ population (w_state w);
}.

(** ** Run *)

Inductive run_result : Type :=
| RunReturns (err : option error)
| RunPanics (why : string)
| RunBlocked.

(** What the rest of the world contributes to one call of [Run]. *)
Record RunEnv : Type := {
  env_started : Z;              (* first reading of [time.Now()] *)
  env_stopped : Z;              (* last reading of [time.Now()] *)
  env_warmup : schedule;        (* interleaving of the warmup workers *)
  env_start : result Process;   (* outcome of [cmd.Start()] *)
  env_rates : list Z;           (* throughput read by each loop iteration *)
  env_kill : option error;      (* outcome of [Kill()] on a live process *)
}.

Definition set_Started (m : LatencyMap) (t : Z) : LatencyMap :=
  {| Started := Some t; Stopped := Stopped m; samples := samples m |}.

Definition set_Stopped (m : LatencyMap) (t : Z) : LatencyMap :=
  {| Started := Started m; Stopped := Some t; samples := samples m |}.

(** The warmup phase of [Run]. *)
Definition run_warmup (env : RunEnv) (s : State) : option (State * list event) :=
  if decide (population s < warmupRegs s)
  then match warmup s (env_warmup env) with
       | Some s' => Some (s', [EvWarmup])
       | None => None
       end
  else Some (s, []).

(** The head of [Run]: the start timestamp, then the warmup phase if the
    store is below the warmup target.  [None] when warmup does not return. *)
Definition run_begin (env : RunEnv) (s : State) : option (State * list event) :=
  run_warmup env
    (set_callLatency s (set_Started (callLatency s) (env_started env))).

(** Starting the challenge server, unless told not to. *)
Definition run_start (env : RunEnv) (s : State) (binName : string)
    (dontRunChallSrv : bool) (httpOneAddr : string)
  : result State * list event :=
  if dontRunChallSrv then (Ok s, [])
  else
    let ev := EvStartProcess binName
                ["chall-srv"; "--rpcAddr=" +:+ challRPCAddr s;
                 "--httpOneAddr=" +:+ httpOneAddr] in
    match env_start env with
    | Err err => (Err err, [ev])
    | Ok proc => (Ok (set_challSrvProc s (Some proc)), [ev])
    end.

(** The sending loop, one iteration per throughput value read before the
    stop signal is seen.  The interval is [time.Second / throughput] in
    integer arithmetic; dividing by zero panics. *)
Fixpoint send_loop (rates : list Z) : outcome unit * list event :=
  match rates with
  | [] => (Returns (), [])
  | rate :: rest =>
      if decide (rate = 0)
      then (Panics "integer divide by zero", [EvWgAdd; EvGo TaskSendCall])
      else
        let '(res, tr) := send_loop rest in
        (res, [EvWgAdd; EvGo TaskSendCall; EvSleep (1000000000 `quot` rate)] ++ tr)
  end.

(** The tail of [Run], from the end of the run-time sleep on.  [Kill] is
    a method of [*os.Process] that reads the fields of its receiver, so
    calling it through a nil [challSrvProc] panics. *)
Definition run_shutdown (env : RunEnv) (s : State)
  : run_result * State * list event :=
  let tr := [EvPrintln "SLEEP END"; EvStopSignal; EvPrintln "SENT STOP";
             EvWgWait; EvPrintln "KILLING CHALL SERVER"] in
  match challSrvProc s with
  | None =>
      (RunPanics "invalid memory address or nil pointer dereference", s, tr)
  | Some proc =>
      let logged := match env_kill env with
                    | Some err => [EvLogKillError err]
                    | None => []
                    end in
      (RunReturns None,
       set_callLatency s (set_Stopped (callLatency s) (env_stopped env)),
       tr ++ [EvKill proc] ++ logged ++ [EvPrintln "ALL DONE"])
  end.

(** [Run].  The result carries the state as written by [Run] itself and
    the trace of what it did; the spawned tasks act on the state through
    what the environment reports. *)
Definition Run (env : RunEnv) (s : State) (binName : string)
    (dontRunChallSrv : bool) (httpOneAddr : string)
  : run_result * State * list event :=
  match run_begin env s with
  | None =>
      (RunBlocked,
       set_callLatency s (set_Started (callLatency s) (env_started env)),
       [EvWarmup])
  | Some (s1, tr1) =>
      match run_start env s1 binName dontRunChallSrv httpOneAddr with
      | (Err err, tr2) => (RunReturns (Some err), s1, tr1 ++ tr2)
      | (Ok s2, tr2) =>
          let tr3 := if decide (0 < length (runPlan s2))%nat
                     then [EvGo TaskExecutePlan] else [] in
          let tr4 := [EvGo TaskSendLoop; EvSleep (runtime s2)] in
          match send_loop (env_rates env) with
          | (Panics why, tr5) =>
              (RunPanics why, s2, tr1 ++ tr2 ++ tr3 ++ tr4 ++ tr5)
          | (Returns _, tr5) =>
              let '(res, s3, tr6) := run_shutdown env s2 in
              (res, s3, tr1 ++ tr2 ++ tr3 ++ tr4 ++ tr5 ++ tr6)
          end
      end
  end.

(** ** Concrete stores *)

Module Examples.
Import ByteCodec.

(** An engine as [New] builds it, with no cap and no warmup. *)
Definition fresh : State := New "127.0.0.1:9998" "https://ca" 1 0 [] 0 0 0.

(** An actor with one authorization and two certificates. *)
Definition tiny_actor : registration :=
  {| key := tiny_key;
     signer := {| signer_key := tiny_key; signer_nonce_source := true |};
     auths := ["a1"]; certs := ["c1"; "c2"] |}.

Definition one_actor : State := set_regs fresh [tiny_actor].

(** A document of two records, the first of which has no key bytes. *)
Definition mixed_document : snapshot :=
  {| Registrations :=
       [{| Certs := ["lost"]; RawKey := [] |};
        {| Certs := ["c1"; "c2"]; RawKey := marshal_key tiny_key |}] |}.

(** A cap of one actor with a warmup target of two, one worker. *)
Definition capped : State := New "127.0.0.1:9998" "https://ca" 1 0 [] 1 2 1.

(** A negative cap and no registrations. *)
Definition negative_cap : State :=
  New "127.0.0.1:9998" "https://ca" 1 0 [] (-1) 0 0.

(** An environment in which the challenge server starts and is killed
    cleanly, and the loop runs twice at five actions per second. *)
Definition calm : RunEnv :=
  {| env_started := 0; env_stopped := 10; env_warmup := [];
     env_start := Ok {| Pid := 4242 |}; env_rates := [5; 5];
     env_kill := None |}.

(** The same, except that the challenge server does not start. *)
Definition no_start : RunEnv :=
  {| env_started := 0; env_stopped := 10; env_warmup := [];
     env_start := Err "exec: not found"; env_rates := [5; 5];
     env_kill := None |}.
End Examples.

(** ** HTTP utilities *)

(** The part of an [http.Response] that [post] looks at, and its status. *)
Record Response : Type := {
  resp_status : Z;
  resp_replayNonce : string;
}.

(** [post]: [newRequest] is the error of [http.NewRequest], if any, and
    [resp], [err] are what [s.client.Do] returns.  A response is inspected
    for a nonce before the error is looked at. *)
Definition post (s : State) (newRequest : option error)
    (resp : option Response) (err : option error)
  : result (option Response) * State :=
  match newRequest with
  | Some e => (Err e, s)
  | None =>
      let s' := post_nonce s (resp_replayNonce <$> resp) in
      match err with
      | Some e => (Err e, s')
      | None => (Ok resp, s')
      end
  end.

(** ** Authorization tables (package sa) *)

(** The [core.AcmeStatus] values that the queries name. *)
Class AcmeStatuses : Type := {
  StatusPending : string;
  StatusProcessing : string;
  StatusUnknown : string;
  StatusInvalid : string;
  StatusRevoked : string;
}.

Module Authz.
Definition authorizationTables : list string :=
  ["authz"; "pendingAuthorizations"].

Definition getAuthorizationIDsMax : Z := 1000.

(** [strings.Join]. *)
Fixpoint Join (parts : list string) (sep : string) : string :=
  match parts with
  | [] => ""
  | [p] => p
  | p :: rest => p +:+ sep +:+ Join rest sep
  end.

(** A line break inside a raw string literal. *)
Definition nl : string := String (Ascii.ascii_of_nat 10) EmptyString.

(** Occurrences of a character in a string. *)
Fixpoint count_char (c : Ascii.ascii) (s : string) : nat :=
  match s with
  | EmptyString => 0
  | String c' s' => (if decide (c' = c) then 1 else 0) + count_char c s'
  end.

Definition question_mark : Ascii.ascii := Ascii.ascii_of_nat 63.

Definition placeholders (stmt : string) : nat := count_char question_mark stmt.

Section Queries.
Context `{AcmeStatuses}.

Definition pendingStatuses : list string :=
  [StatusPending; StatusProcessing; StatusUnknown].

Definition statusIsPending (status : string) : bool :=
  foldr (λ pendingStatus found,
           if decide (status = pendingStatus) then true else found)
        false pendingStatuses.

(** The two loops that build [stmtArgs] and [qmarks] from a first
    argument and a list of values. *)
Definition stmtArgs_of (first : string) (values : list string) : list string :=
  foldl (λ acc v, acc ++ [v]) [first] values.

Definition qmarks_of (values : list string) : list string :=
  foldl (λ acc _, acc ++ ["?"]) [] values.

(** [fmt.Sprintf("(%s)", strings.Join(qmarks, ", "))]. *)
Definition in_list (values : list string) : string :=
  "(" +:+ Join (qmarks_of values) ", " +:+ ")".

Definition countPending_query (table : string) : string :=
  nl +:+ "SELECT count(*)" +:+ nl +:+ "FROM " +:+ table +:+ nl
  +:+ "WHERE id = ?" +:+ nl +:+ "AND status IN " +:+ in_list pendingStatuses.

Definition existingFinal_query : string :=
  nl +:+ "SELECT count(*)" +:+ nl +:+ "FROM authz" +:+ nl
  +:+ "WHERE id = ?" +:+ nl
  +:+ "AND status NOT IN " +:+ in_list pendingStatuses.

Definition revoke_query (tableName : string) (authIDs : list string) : string :=
  "UPDATE " +:+ tableName +:+ nl +:+ "       SET status = ?" +:+ nl
  +:+ "       WHERE id IN " +:+ in_list authIDs.

(** [tx.SelectOne(&holder, query, args...)] for a count: the number
    read, or an error, in which case the holder keeps its zero. *)
Definition SelectOne : Type := string → list string → result Z.

Definition held (r : result Z) : Z :=
  match r with
  | Ok n => n
  | Err _ => 0
  end.

Definition countPending (tx : SelectOne) (id : string) : Z :=
  foldl (λ count table,
           GoInt.add count
             (held (tx (countPending_query table)
                       (stmtArgs_of id pendingStatuses))))
        0 authorizationTables.

Definition existingPending (tx : SelectOne) (id : string) : bool :=
  bool_decide (0 < countPending tx id).

Definition existingFinal (tx : SelectOne) (id : string) : bool :=
  bool_decide
    (0 < held (tx existingFinal_query (stmtArgs_of id pendingStatuses))).

(** [db.Exec] followed by [result.RowsAffected()]. *)
Inductive ExecOutcome : Type :=
| ExecFails (err : error)
| ExecDone (rowsAffected : result Z).

Definition revokeAuthorizations
    (db : string → list string → ExecOutcome)
    (tableName : string) (authIDs : list string) : result Z :=
  match db (revoke_query tableName authIDs)
           (stmtArgs_of StatusRevoked authIDs) with
  | ExecFails err => Err err
  | ExecDone (Err err) => Err err
  | ExecDone (Ok batchSize) => Ok batchSize
  end.
End Queries.

(** The status names of [core]. *)
#[export] Instance core_statuses : AcmeStatuses := {|
  StatusPending := "pending";
  StatusProcessing := "processing";
  StatusUnknown := "unknown";
  StatusInvalid := "invalid";
  StatusRevoked := "revoked";
|}.
End Authz.

(** ** Validity-date lint (package lints) *)

Module Lint.
(** The statuses [Execute] can report. *)
Inductive LintStatus : Type :=
| Pass
| Error
| Fatal.

#[global] Instance LintStatus_eq_dec : EqDecision LintStatus.
Proof. solve_decision. Defined.

(** What re-encoding a validity date and decoding it as a [time.Time]
    gives: [asn1.Marshal] fails, [asn1.Unmarshal] fails, or an instant. *)
Inductive decoded : Type :=
| MarshalFails
| UnmarshalFails
| Instant (t : Z).

(** One validity date of a certificate: the ASN.1 tag reported by
    [util.FindTimeType] (23 for UTCTime, 24 for GeneralizedTime) and the
    outcome of decoding it. *)
Record date : Type := {
  date_type : Z;
  date_decoded : decoded;
}.

(** One of the two blocks of [Execute]: [None] when the block falls
    through to what follows it. *)
Definition check_date (GeneralizedDate : Z) (d : date) : option LintStatus :=
  if decide (date_type d = 24) then
    match date_decoded d with
    | MarshalFails => Some Fatal
    | UnmarshalFails => Some Fatal
    | Instant t => if decide (t < GeneralizedDate) then Some Error else None
    end
  else None.

(** [Execute] on a certificate with validity dates [date1], [date2];
    [GeneralizedDate] is the first instant of 2050. *)
Definition Execute (GeneralizedDate : Z) (date1 date2 : date) : LintStatus :=
  match check_date GeneralizedDate date1 with
  | Some status => status
  | None =>
      match check_date GeneralizedDate date2 with
      | Some status => status
      | None => Pass
      end
  end.
End Lint.

(** ** More concrete inputs *)

Module Samples.
(** A list that names one action twice and gives another no weight. *)
Definition repeated : list (probabilityProfile string) :=
  [ProbabilityProfile 2 "a"; ProbabilityProfile 0 "b"; ProbabilityProfile 3 "a"].

(** A list whose running total ends below zero. *)
Definition negative_total : list (probabilityProfile string) :=
  [ProbabilityProfile 3 "a"; ProbabilityProfile (-5) "b"].

(** A second actor, with no authorization and no certificate. *)
Definition bare_actor : registration :=
  {| key := {| key_N := 35; key_E := 5; key_D := 5; key_Primes := [5; 7] |};
     signer := {| signer_key :=
                    {| key_N := 35; key_E := 5; key_D := 5; key_Primes := [5; 7] |};
                  signer_nonce_source := true |};
     auths := []; certs := [] |}.

Definition two_actors : State :=
  set_regs Examples.fresh [Examples.tiny_actor; bare_actor].

(** Three workers, a target of four, and three actors in the store. *)
Definition one_short : State :=
  set_regs (New "127.0.0.1:9998" "https://ca" 1 0 [] 0 4 3)
           [bare_actor; bare_actor; bare_actor].

(** A target of three with no worker to reach it. *)
Definition no_workers : State := New "127.0.0.1:9998" "https://ca" 1 0 [] 0 3 0.

(** A target of three and two workers. *)
Definition two_workers : State := New "127.0.0.1:9998" "https://ca" 1 0 [] 0 3 2.

(** A target of three and one worker. *)
Definition one_worker : State := New "127.0.0.1:9998" "https://ca" 1 0 [] 0 3 1.

(** A run in which the throughput is read as zero on the second tick. *)
Definition stalls : RunEnv :=
  {| env_started := 0; env_stopped := 10; env_warmup := [];
     env_start := Ok {| Pid := 4242 |}; env_rates := [5; 0; 5];
     env_kill := None |}.


(** A database in which [authz] holds two pending rows for every id and
    the legacy table cannot be read. *)
Definition legacy_down : Authz.SelectOne :=
  λ query _,
    if decide (query = Authz.countPending_query (H := Authz.core_statuses) "authz")
    then Ok 2 else Err "Error 1146: table does not exist".

(** A database that cannot be read at all. *)
Definition all_down : Authz.SelectOne := λ _ _, Err "connection refused".

(** Validity dates: 2049 and 2051 as GeneralizedTime, 2049 as UTCTime,
    and a GeneralizedTime that does not decode; instants are seconds
    since 1970, and 2050 starts at 2524608000. *)
Definition year2050 : Z := 2524608000.
Definition generalized_2049 : Lint.date :=
  {| Lint.date_type := 24; Lint.date_decoded := Lint.Instant 2500000000 |}.
Definition generalized_2051 : Lint.date :=
  {| Lint.date_type := 24; Lint.date_decoded := Lint.Instant 2560000000 |}.
Definition utc_2049 : Lint.date :=
  {| Lint.date_type := 23; Lint.date_decoded := Lint.Instant 2500000000 |}.
Definition generalized_broken : Lint.date :=
  {| Lint.date_type := 24; Lint.date_decoded := Lint.UnmarshalFails |}.
End Samples.

(** ** Reading a trace of [Run] *)

(** Calls spawned with [go s.sendCall()], and [wg.Add(1)] registrations. *)
Definition spawned (tr : list event) : nat :=
  length (filter (λ ev, ev = EvGo TaskSendCall) tr).

Definition registered (tr : list event) : nat :=
  length (filter (λ ev, ev = EvWgAdd) tr).

(** The durations slept, in order. *)
Definition sleeps (tr : list event) : list Z :=
  omap (λ ev, match ev with EvSleep d => Some d | _ => None end) tr.

(** ** Interleavings of the warmup workers *)

(** Workers [first], ..., [first + count - 1] move once each, in order;
    [created] is how a creation attempt ends if that is the move. *)
Definition sweep (first count : nat) (created : option registration) : schedule :=
  (λ i, (i, created)) <$> seq first count.

(** The interleaving in which every worker reads the population before
    any of them has registered its actor: all read, all create, all read
    again. *)
Definition race (workers : nat) (reg : registration) : schedule :=
  sweep 0 workers None ++ sweep 0 workers (Some reg) ++ sweep 0 workers None.

(** ** Run and the calls it spawns *)

(** How a call spawned by the sending loop ends: it returns and reaches
    [wg.Done()], it panics, or it never finishes. *)
Inductive call_end : Type :=
| CallDone
| CallPanics (why : string)
| CallPending.

#[global] Instance call_end_eq_dec : EqDecision call_end.
Proof. solve_decision. Defined.




(** * Properties *)

(** ** Machine integers *)

Module GoIntFacts.
Lemma wrap_small z : GoInt.min_int ≤ z ≤ GoInt.max_int → GoInt.wrap z = z.
Proof.
  unfold GoInt.min_int, GoInt.max_int, GoInt.wrap. intros Hz.
  rewrite Z.mod_small; lia.
Qed.

Lemma add_small a b : GoInt.min_int ≤ a + b ≤ GoInt.max_int → GoInt.add a b = a + b.
Proof. apply wrap_small. Qed.

Lemma Intn_in_range r n : 0 ≤ r < n → GoInt.Intn r n = Returns r.
Proof.
  intros Hr. unfold GoInt.Intn. case_decide; [lia|].
  by rewrite Z.mod_small.
Qed.
End GoIntFacts.

(** ** Weighted selection *)

Section WeightedCallFacts.
Context {A : Type} `{EqDecision A}.
Implicit Types setup : list (probabilityProfile A).

Lemma total_weight_nonneg setup : nonneg_weights setup → 0 ≤ total_weight setup.
Proof.
  induction 1 as [|pp rest Hpp _ IH]; simpl; [done|].
  change (foldr _ 0 rest) with (total_weight rest). lia.
Qed.

Lemma fill_choices_lookup (choices : gmap Z A) n (pp : probabilityProfile A) k :
  0 ≤ prob pp → GoInt.min_int ≤ n → n + prob pp ≤ GoInt.max_int + 1 →
  fill_choices choices n pp !! k =
    if decide (n ≤ k < n + prob pp) then Some (action pp) else choices !! k.
Proof.
  unfold fill_choices. intros Hp Hn Hmax.
  rewrite <- (Z2Nat.id (prob pp)) in * by done.
  induction (Z.to_nat (prob pp)) as [|m IH].
  - rewrite seqZ_nil by lia. simpl. case_decide; [lia|done].
  - rewrite seqZ_S, foldl_app. simpl.
    rewrite GoIntFacts.add_small by lia.
    rewrite lookup_insert. rewrite IH by lia.
    repeat case_decide; try done; lia.
Qed.

Lemma interval_pick_negative setup k :
  nonneg_weights setup → k < 0 → interval_pick setup k = None.
Proof.
  intros Hnn. revert k.
  induction Hnn as [|pp rest Hpp _ IH]; intros k Hk; simpl; [done|].
  case_decide; [lia|]. apply IH. lia.
Qed.

Lemma interval_pick_beyond setup k :
  nonneg_weights setup → total_weight setup ≤ k → interval_pick setup k = None.
Proof.
  intros Hnn. revert k.
  induction Hnn as [|pp rest Hpp Hrest IH]; intros k Hk; simpl in *; [done|].
  change (foldr _ 0 rest) with (total_weight rest) in Hk.
  pose proof (total_weight_nonneg rest Hrest).
  case_decide; [lia|]. apply IH. lia.
Qed.

Lemma interval_pick_inside setup k :
  nonneg_weights setup → 0 ≤ k < total_weight setup →
  is_Some (interval_pick setup k).
Proof.
  intros Hnn. revert k.
  induction Hnn as [|pp rest Hpp _ IH]; intros k Hk; simpl in *; [lia|].
  change (foldr _ 0 rest) with (total_weight rest) in Hk.
  case_decide; [by eexists|]. apply IH. lia.
Qed.

Lemma build_from_spec setup : ∀ (choices : gmap Z A) n,
  nonneg_weights setup → GoInt.min_int ≤ n →
  n + total_weight setup ≤ GoInt.max_int →
  (build_from (choices, n) setup).2 = n + total_weight setup ∧
  ∀ k, (build_from (choices, n) setup).1 !! k =
         match interval_pick setup (k - n) with
         | Some a => Some a
         | None => choices !! k
         end.
Proof.
  induction setup as [|pp rest IH]; intros choices n Hnn Hn Hmax.
  - simpl. split; [lia|done].
  - inversion Hnn as [|? ? Hpp Hrest]; subst.
    pose proof (total_weight_nonneg rest Hrest) as Hrest0.
    simpl in Hmax. change (foldr _ 0 rest) with (total_weight rest) in Hmax.
    unfold build_from. simpl.
    rewrite GoIntFacts.add_small by (unfold GoInt.min_int in *; lia).
    change (foldl _ ?acc rest) with (build_from acc rest).
    destruct (IH (fill_choices choices n pp) (n + prob pp) Hrest) as [IHn IHl];
      [lia|lia|].
    split.
    + rewrite IHn. change (foldr _ 0 rest) with (total_weight rest). lia.
    + intros k. rewrite IHl.
      rewrite fill_choices_lookup by lia.
      replace (k - (n + prob pp)) with (k - n - prob pp) by lia.
      case_decide as Hin.
      * rewrite decide_True by lia.
        rewrite interval_pick_negative by (done || lia). done.
      * rewrite decide_False by lia. done.
Qed.

Lemma build_choices_spec setup :
  nonneg_weights setup → total_weight setup ≤ GoInt.max_int →
  (build_choices setup).2 = total_weight setup ∧
  ∀ k, (build_choices setup).1 !! k = interval_pick setup k.
Proof.
  intros Hnn Hmax.
  destruct (build_from_spec setup ∅ 0 Hnn) as [Hn Hl];
    [unfold GoInt.min_int; lia|lia|].
  split; [by rewrite <- (Z.add_0_l (total_weight setup))|].
  intros k. unfold build_choices. rewrite Hl, Z.sub_0_r, lookup_empty.
  by destruct (interval_pick setup k).
Qed.

(** For a draw inside the index space, [weightedCall] returns the entry
    whose cumulative interval holds the draw. *)
Lemma weightedCall_interval setup k :
  nonneg_weights setup → total_weight setup ≤ GoInt.max_int →
  0 ≤ k < total_weight setup →
  weightedCall setup k = Returns (interval_pick setup k).
Proof.
  intros Hnn Hmax Hk.
  destruct (build_choices_spec setup Hnn Hmax) as [Hn Hl].
  unfold weightedCall. rewrite Hn.
  case_decide as Hsize.
  - apply map_size_empty_iff in Hsize.
    destruct (interval_pick_inside setup k Hnn Hk) as [a Ha].
    rewrite <- Hl, Hsize, lookup_empty in Ha. done.
  - rewrite GoIntFacts.Intn_in_range by done. by rewrite Hl.
Qed.

(** *** Counting the indices that select an action *)

Lemma length_filter_ext_in (P Q : Z → Prop)
    `{!∀ x, Decision (P x)} `{!∀ x, Decision (Q x)} (l : list Z) :
  (∀ x, x ∈ l → P x ↔ Q x) → length (filter P l) = length (filter Q l).
Proof.
  induction l as [|x l IH]; intros Hext; [done|].
  rewrite !filter_cons.
  assert (length (filter P l) = length (filter Q l)) as Hl.
  { apply IH. intros y Hy. apply Hext. by right. }
  destruct (Hext x ltac:(left)) as [HPQ HQP].
  repeat case_decide; simpl; auto; tauto.
Qed.

Lemma length_filter_all (P : Z → Prop) `{!∀ x, Decision (P x)} (l : list Z) :
  (∀ x, x ∈ l → P x) → length (filter P l) = length l.
Proof.
  induction l as [|x l IH]; intros HP; [done|].
  rewrite filter_cons_True by (apply HP; left). simpl.
  f_equal. apply IH. intros y Hy. apply HP. by right.
Qed.

Lemma length_filter_none (P : Z → Prop) `{!∀ x, Decision (P x)} (l : list Z) :
  (∀ x, x ∈ l → ¬ P x) → length (filter P l) = 0%nat.
Proof.
  induction l as [|x l IH]; intros HP; [done|].
  rewrite filter_cons_False by (apply HP; left).
  apply IH. intros y Hy. apply HP. by right.
Qed.

Lemma interval_pick_count setup a : ∀ m,
  nonneg_weights setup →
  Z.of_nat (length (filter (λ k, interval_pick setup (k - m) = Some a)
                           (seqZ m (total_weight setup))))
  = weight_of a setup.
Proof.
  induction setup as [|pp rest IH]; intros m Hnn; [done|].
  inversion Hnn as [|? ? Hpp Hrest]; subst.
  pose proof (total_weight_nonneg rest Hrest) as Hrest0.
  simpl. change (foldr _ 0 rest) with (total_weight rest).
  change (foldr _ 0 rest) with (weight_of a rest).
  rewrite seqZ_app, filter_app, length_app, Nat2Z.inj_add by done.
  f_equal.
  - (* indices of the first interval all select [action pp] *)
    destruct (decide (action pp = a)) as [Heq|Hne].
    + rewrite length_filter_all, length_seqZ; [lia|].
      intros k Hk%elem_of_seqZ. rewrite decide_True by lia. by rewrite Heq.
    + rewrite length_filter_none; [done|].
      intros k Hk%elem_of_seqZ. rewrite decide_True by lia.
      intros [= Heq]. done.
  - (* indices beyond it are looked up in the rest of the list *)
    rewrite <- (IH (m + prob pp) Hrest). f_equal.
    apply length_filter_ext_in.
    intros k Hk%elem_of_seqZ. rewrite decide_False by lia.
    by replace (k - m - prob pp) with (k - (m + prob pp)) by lia.
Qed.

(** The number of indices mapped to an action is the weight listed for it. *)
Lemma hits_weight setup a :
  nonneg_weights setup → total_weight setup ≤ GoInt.max_int →
  Z.of_nat (hits setup a) = weight_of a setup.
Proof.
  intros Hnn Hmax. rewrite <- (interval_pick_count setup a 0 Hnn).
  unfold hits. f_equal. apply length_filter_ext_in.
  intros k Hk%elem_of_seqZ.
  rewrite weightedCall_interval by (done || lia).
  rewrite Z.sub_0_r. split; [by intros [= ->]|by intros ->].
Qed.

(** With no index at all the map is empty and the nil func is returned. *)
Lemma weightedCall_nil r : weightedCall (A:=A) [] r = Returns None.
Proof. reflexivity. Qed.
End WeightedCallFacts.

Section WeightedCallDistinct.
Context {A : Type} `{EqDecision A}.
Implicit Types setup : list (probabilityProfile A).

Lemma weight_of_absent setup a :
  a ∉ action <$> setup → weight_of a setup = 0.
Proof.
  induction setup as [|pp rest IH]; intros Hnotin; [done|].
  simpl in *. change (foldr _ 0 rest) with (weight_of a rest).
  apply not_elem_of_cons in Hnotin as [Hne Hrest].
  rewrite decide_False by done. rewrite IH by done. lia.
Qed.

(** When no action is listed twice, an action's weight is its entry's. *)
Lemma weight_of_listed setup pp :
  NoDup (action <$> setup) → pp ∈ setup →
  weight_of (action pp) setup = prob pp.
Proof.
  induction setup as [|qq rest IH]; intros Hnd Hin; [by apply elem_of_nil in Hin|].
  simpl in *. change (foldr _ 0 rest) with (weight_of (action pp) rest).
  apply NoDup_cons in Hnd as [Hfresh Hnd].
  apply elem_of_cons in Hin as [->|Hin].
  - rewrite decide_True by done. rewrite weight_of_absent by done. lia.
  - rewrite decide_False.
    + rewrite IH by done. lia.
    + intros Heq. apply Hfresh. rewrite Heq.
      by apply list_elem_of_fmap_2.
Qed.

Lemma sublist_nonneg_weights setup1 setup2 :
  setup1 `sublist_of` setup2 → nonneg_weights setup2 → nonneg_weights setup1.
Proof.
  unfold nonneg_weights. intros Hsub Hnn.
  apply Forall_forall. intros pp Hpp.
  rewrite Forall_forall in Hnn. apply Hnn.
  by apply (sublist_subseteq _ _ Hsub).
Qed.

Lemma sublist_total_weight setup1 setup2 :
  setup1 `sublist_of` setup2 → nonneg_weights setup2 →
  total_weight setup1 ≤ total_weight setup2.
Proof.
  induction 1 as [|pp l1 l2 Hsub IH|pp l1 l2 Hsub IH]; intros Hnn; [done|..];
    inversion Hnn; subst; simpl;
    change (foldr _ 0 l1) with (total_weight l1);
    change (foldr _ 0 l2) with (total_weight l2);
    specialize (IH ltac:(done)); lia.
Qed.

Lemma sublist_NoDup_actions setup1 setup2 :
  setup1 `sublist_of` setup2 →
  NoDup (action <$> setup2) → NoDup (action <$> setup1).
Proof.
  intros Hsub Hnd.
  apply (sublist_NoDup (action <$> setup1) (action <$> setup2));
    [done|by apply fmap_sublist].
Qed.

Lemma interval_pick_listed setup k a :
  interval_pick setup k = Some a → ∃ pp, pp ∈ setup ∧ action pp = a.
Proof.
  revert k. induction setup as [|qq rest IH]; intros k; simpl; [done|].
  case_decide.
  - intros [= <-]. exists qq. split; [left|done].
  - intros (pp & Hin & Heq)%IH. exists pp. split; [by right|done].
Qed.
End WeightedCallDistinct.

(** ** The call sender *)

Lemma all_eligible_nonneg : nonneg_weights all_eligible.
Proof. repeat constructor; simpl; lia. Qed.

Lemma all_eligible_NoDup : NoDup (action <$> all_eligible).
Proof.
  apply NoDup_ListNoDup. unfold all_eligible. simpl.
  repeat constructor; simpl; intuition discriminate.
Qed.

Lemma all_eligible_total : total_weight all_eligible = 10.
Proof. reflexivity. Qed.

(** Whatever the state and the registration drawn, [sendCall] builds a
    sub-list of the four-entry table, in the table's order. *)
Lemma actionList_sublist s reg : actionList s reg `sublist_of` all_eligible.
Proof.
  unfold actionList, all_eligible.
  destruct reg as [reg|]; repeat case_decide; simpl;
    repeat (first [apply sublist_nil | apply sublist_skip | apply sublist_cons]).
Qed.

(** C1.  For every action list that [sendCall] can build from the weights
    1 (create actor), 3 (create authorization), 4 (issue certificate) and
    2 (revoke certificate), [weightedCall] is a uniform draw over the
    weight-expanded index space: every index [k] below the total weight
    selects the listed action whose cumulative-weight interval contains
    [k]; the number of indices that select an action is its weight, so its
    probability is weight / total weight; and with all four eligible these
    are 10%, 30%, 40% and 20%. *)
Theorem weightedCall_weighted_draw (setup : list (probabilityProfile method)) :
  setup `sublist_of` all_eligible →
  (∀ k, 0 ≤ k < total_weight setup →
     weightedCall setup k = Returns (interval_pick setup k) ∧
     ∃ pp, pp ∈ setup ∧ interval_pick setup k = Some (action pp)) ∧
  (∀ pp, pp ∈ setup →
     Z.of_nat (hits setup (action pp)) = prob pp ∧
     Qeq (selection_probability setup (action pp))
         (inject_Z (prob pp) / inject_Z (total_weight setup))) ∧
  (setup = all_eligible →
     Qeq (selection_probability setup newRegistration) (10 # 100) ∧
     Qeq (selection_probability setup newAuthorization) (30 # 100) ∧
     Qeq (selection_probability setup newCertificate) (40 # 100) ∧
     Qeq (selection_probability setup revokeCertificate) (20 # 100)).
Proof.
  intros Hsub.
  pose proof (sublist_nonneg_weights _ _ Hsub all_eligible_nonneg) as Hnn.
  pose proof (sublist_total_weight _ _ Hsub all_eligible_nonneg) as Htot.
  rewrite all_eligible_total in Htot.
  assert (total_weight setup ≤ GoInt.max_int) as Hmax
    by (unfold GoInt.max_int; lia).
  pose proof (sublist_NoDup_actions _ _ Hsub all_eligible_NoDup) as Hnd.
  assert (∀ pp, pp ∈ setup → Z.of_nat (hits setup (action pp)) = prob pp)
    as Hhits.
  { intros pp Hpp. rewrite hits_weight by done. by apply weight_of_listed. }
  split; [|split].
  - intros k Hk. split; [by apply weightedCall_interval|].
    destruct (interval_pick_inside setup k Hnn Hk) as [a Ha].
    destruct (interval_pick_listed _ _ _ Ha) as (pp & Hin & <-). eauto.
  - intros pp Hpp. split; [by apply Hhits|].
    unfold selection_probability. rewrite Hhits by done. reflexivity.
  - intros ->. unfold selection_probability.
    assert (∀ w a, ProbabilityProfile w a ∈ all_eligible →
                   Z.of_nat (hits all_eligible a) = w) as Hentry
      by (intros w a Hin; exact (Hhits _ Hin)).
    rewrite (Hentry 1 newRegistration), (Hentry 3 newAuthorization),
            (Hentry 4 newCertificate), (Hentry 2 revokeCertificate)
      by (unfold all_eligible; rewrite !elem_of_cons; tauto).
    rewrite all_eligible_total. repeat split; reflexivity.
Qed.

Lemma weightedCall_weighted_draw_witness :
  all_eligible `sublist_of` all_eligible ∧
  weightedCall all_eligible 7 = Returns (Some newCertificate) ∧
  hits all_eligible newCertificate = 4%nat.
Proof.
  assert (all_eligible `sublist_of` all_eligible) as Hsub by reflexivity.
  destruct (weightedCall_weighted_draw all_eligible Hsub) as (Hpick & Hcount & _).
  split; [exact Hsub|]. split.
  - destruct (Hpick 7 ltac:(rewrite all_eligible_total; lia)) as [-> _].
    reflexivity.
  - apply Nat2Z.inj.
    exact (proj1 (Hcount (ProbabilityProfile 4 newCertificate)
                         ltac:(unfold all_eligible; rewrite !elem_of_cons; tauto))).
Defined.

(** Any raw draw is reduced into the index space before the lookup. *)
Lemma weightedCall_any_draw {A} (setup : list (probabilityProfile A)) r :
  nonneg_weights setup → total_weight setup ≤ GoInt.max_int →
  0 < total_weight setup →
  weightedCall setup r = Returns (interval_pick setup (r `mod` total_weight setup)).
Proof.
  intros Hnn Hmax Hpos.
  pose proof (Z.mod_pos_bound r (total_weight setup) Hpos) as Hk.
  rewrite <- (weightedCall_interval setup _ Hnn Hmax Hk).
  unfold weightedCall.
  destruct (build_choices_spec setup Hnn Hmax) as [-> _].
  case_decide; [done|].
  unfold GoInt.Intn. case_decide; [lia|].
  by rewrite Z.mod_mod by lia.
Qed.

Lemma getReg_empty s r : regs s = [] → getReg s r = Returns None.
Proof. intros Hregs. unfold getReg, population. by rewrite Hregs. Qed.

Lemma getReg_returns s r :
  ∃ reg, getReg s r = Returns reg ∧ (reg = None ↔ regs s = []).
Proof.
  unfold getReg, population. case_decide as Hlen.
  - exists None. split; [done|]. split; [|done]. intros _.
    destruct (regs s); [done|simpl in Hlen; lia].
  - assert (0 < Z.of_nat (length (regs s))) as Hpos by lia.
    pose proof (Z.mod_pos_bound r _ Hpos) as Hi.
    unfold GoInt.Intn. rewrite decide_False by lia.
    destruct (lookup_lt_is_Some_2 (regs s)
                (Z.to_nat (r `mod` Z.of_nat (length (regs s))))) as [reg Hreg];
      [lia|].
    rewrite Hreg. exists (Some reg). split; [done|].
    split; [done|]. intros Hnil. rewrite Hnil in Hlen. done.
Qed.

(** The action list is empty exactly when no registration was drawn and the
    cap forbids creating one. *)
Lemma actionList_nil s reg :
  actionList s reg = [] ↔
  reg = None ∧ maxRegs s ≠ 0 ∧ maxRegs s ≤ population s.
Proof.
  unfold actionList. split.
  - destruct reg as [reg|]; case_decide; simpl; try done.
    intros _. split; [done|]. lia.
  - intros (-> & Hne & Hle). rewrite decide_False by lia. done.
Qed.

(** C5.  On a dispatch tick whose eligible-action set is empty, [sendCall]
    does not complete as a no-op: [weightedCall] returns the nil func value
    and [sendCall] calls it, which panics. *)
Theorem sendCall_empty_list_panics s r_reg r_act reg :
  getReg s r_reg = Returns reg →
  actionList s reg = [] →
  sendCall s r_reg r_act
  = Panics "invalid memory address or nil pointer dereference".
Proof.
  intros Hreg Hnil. unfold sendCall. rewrite Hreg, Hnil.
  by rewrite weightedCall_nil.
Qed.

Lemma sendCall_empty_list_panics_witness :
  getReg (New "" "" 1 0 [] (-1) 0 0) 0 = Returns None ∧
  actionList (New "" "" 1 0 [] (-1) 0 0) None = [] ∧
  sendCall (New "" "" 1 0 [] (-1) 0 0) 0 0
  = Panics "invalid memory address or nil pointer dereference".
Proof.
  split; [reflexivity|]. split; [reflexivity|].
  apply (sendCall_empty_list_panics _ 0 0 None); reflexivity.
Defined.

(** Apart from that case [sendCall] always makes a call: with a
    non-negative cap some action is eligible whatever is drawn. *)
Lemma sendCall_returns s r_reg r_act :
  0 ≤ maxRegs s →
  ∃ call reg, sendCall s r_reg r_act = Returns (call, reg) ∧
              call ∈ action <$> actionList s reg.
Proof.
  intros Hcap. unfold sendCall.
  destruct (getReg_returns s r_reg) as (reg & -> & Hreg).
  pose proof (actionList_sublist s reg) as Hsub.
  pose proof (sublist_nonneg_weights _ _ Hsub all_eligible_nonneg) as Hnn.
  pose proof (sublist_total_weight _ _ Hsub all_eligible_nonneg) as Htot.
  rewrite all_eligible_total in Htot.
  assert (0 < total_weight (actionList s reg)) as Hpos.
  { unfold actionList. destruct reg as [reg|].
    - repeat case_decide; simpl; lia.
    - rewrite decide_True; [simpl; lia|].
      unfold population. rewrite (proj1 Hreg eq_refl). simpl. lia. }
  rewrite weightedCall_any_draw by (done || unfold GoInt.max_int; lia).
  destruct (interval_pick_inside (actionList s reg)
              (r_act `mod` total_weight (actionList s reg)) Hnn) as [call Hcall];
    [by apply Z.mod_pos_bound|].
  rewrite Hcall. exists call, reg. split; [done|].
  destruct (interval_pick_listed _ _ _ Hcall) as (pp & Hin & <-).
  by apply list_elem_of_fmap_2.
Qed.

(** ** Nonce pool *)

Lemma noncePool_addNonce_many s ns :
  noncePool (foldl addNonce s ns) = noncePool s ++ ns.
Proof.
  revert s. induction ns as [|n ns IH]; intros s; simpl.
  - by rewrite app_nil_r.
  - rewrite IH. simpl. by rewrite <- app_assoc.
Qed.

(** Taking from a non-empty pool pops its front and makes no request. *)
Lemma Nonce_pop s nonce rest probe :
  noncePool s = nonce :: rest →
  Nonce s probe = (Ok nonce, set_noncePool s rest, []).
Proof. intros Hpool. unfold Nonce. by rewrite Hpool. Qed.

(** As many takes as there are pooled tokens return the tokens in pool
    order, empty the pool, and make no request. *)
Lemma Nonce_many_drains probes : ∀ s,
  length probes = length (noncePool s) →
  Nonce_many s probes = (Ok <$> noncePool s, set_noncePool s [], []).
Proof.
  induction probes as [|probe probes IH]; intros s Hlen.
  - destruct (noncePool s) eqn:Hpool; [|done]. simpl.
    destruct s; simpl in *; by subst.
  - destruct (noncePool s) as [|nonce rest] eqn:Hpool; [done|].
    simpl. rewrite (Nonce_pop s nonce rest) by done.
    rewrite IH by (simpl in *; lia). done.
Qed.

(** A take from an empty pool makes exactly one request, to the directory. *)
Lemma Nonce_refill s probe :
  noncePool s = [] →
  ∃ res state,
    Nonce s probe =
      (res,
       set_callLatency s (latency_Add (callLatency s) "HEAD /directory" state),
       [EvHead (apiBase s +:+ "/directory")]) ∧
    res = match probe with
          | HeadError err => Err err
          | HeadResponse nonce =>
              if decide (nonce ≠ "") then Ok nonce
              else Err "Nonce header not supplied!"
          end.
Proof.
  intros Hpool. unfold Nonce. rewrite Hpool.
  destruct probe as [err|nonce]; [|case_decide]; eauto.
Qed.

(** C3.  The nonce pool is FIFO and single-use: after adding [n1] then
    [n2] to an empty pool, two successive takes return [n1] then [n2], each
    removed from the pool as it is returned, without any request (and so for
    any sequence of added tokens); a take on an empty pool makes exactly
    one request to the directory and returns the header token, or an error
    when the transport fails or the header is missing. *)
Theorem nonce_pool_fifo_single_use s n1 n2 :
  noncePool s = [] →
  (∀ probe1 probe2,
     Nonce (addNonce (addNonce s n1) n2) probe1
       = (Ok n1, set_noncePool s [n2], []) ∧
     Nonce (set_noncePool s [n2]) probe2 = (Ok n2, set_noncePool s [], []) ∧
     Nonce_many (addNonce (addNonce s n1) n2) [probe1; probe2]
       = ([Ok n1; Ok n2], set_noncePool s [], [])) ∧
  (∀ ns probes, length probes = length ns →
     Nonce_many (foldl addNonce s ns) probes
       = (Ok <$> ns, set_noncePool s [], [])) ∧
  (∀ probe, ∃ s' tr,
     Nonce s probe =
       (match probe with
        | HeadError err => Err err
        | HeadResponse nonce =>
            if decide (nonce ≠ "") then Ok nonce
            else Err "Nonce header not supplied!"
        end, s', tr) ∧
     tr = [EvHead (apiBase s +:+ "/directory")] ∧
     probes_in tr = 1%nat).
Proof.
  intros Hpool. split; [|split].
  - intros probe1 probe2.
    assert (Nonce (addNonce (addNonce s n1) n2) probe1
            = (Ok n1, set_noncePool s [n2], [])) as H1.
    { unfold Nonce, addNonce. simpl. rewrite Hpool. done. }
    assert (Nonce (set_noncePool s [n2]) probe2
            = (Ok n2, set_noncePool s [], [])) as H2 by done.
    split; [done|]. split; [done|].
    simpl. rewrite H1, H2. done.
  - intros ns probes Hlen.
    rewrite Nonce_many_drains
      by (by rewrite noncePool_addNonce_many, Hpool).
    rewrite noncePool_addNonce_many, Hpool. simpl.
    f_equal. f_equal. clear. revert s.
    induction ns as [|n ns IH]; intros s; [done|]. simpl. by rewrite IH.
  - intros probe.
    destruct (Nonce_refill s probe Hpool) as (res & state & -> & ->).
    eauto.
Qed.

Lemma nonce_pool_fifo_single_use_witness :
  Nonce_many (addNonce (addNonce (New "" "https://ca" 1 0 [] 0 0 0) "n1") "n2")
             [HeadError "down"; HeadError "down"]
  = ([Ok "n1"; Ok "n2"], New "" "https://ca" 1 0 [] 0 0 0, []).
Proof.
  destruct (nonce_pool_fifo_single_use (New "" "https://ca" 1 0 [] 0 0 0)
              "n1" "n2" eq_refl) as (Hfifo & _ & _).
  destruct (Hfifo (HeadError "down") (HeadError "down")) as (_ & _ & ->).
  reflexivity.
Defined.

(** C10.  A take on an empty pool whose probe succeeds with a nonce header
    hands the probed token to the caller without inserting it: the pool is
    as empty after the call as before, and only the latency record
    changes. *)
Theorem Nonce_probe_token_not_pooled s nonce :
  noncePool s = [] → nonce ≠ "" →
  Nonce s (HeadResponse nonce)
    = (Ok nonce,
       set_callLatency s (latency_Add (callLatency s) "HEAD /directory" "good"),
       [EvHead (apiBase s +:+ "/directory")]) ∧
  noncePool (Nonce s (HeadResponse nonce)).1.2 = [] ∧
  (nonce ∉ noncePool (Nonce s (HeadResponse nonce)).1.2).
Proof.
  intros Hpool Hnonce.
  assert (Nonce s (HeadResponse nonce)
          = (Ok nonce,
             set_callLatency s
               (latency_Add (callLatency s) "HEAD /directory" "good"),
             [EvHead (apiBase s +:+ "/directory")])) as ->.
  { unfold Nonce. rewrite Hpool. by rewrite decide_True. }
  simpl. rewrite Hpool. split; [done|]. split; [done|apply not_elem_of_nil].
Qed.

Lemma Nonce_probe_token_not_pooled_witness :
  noncePool (Nonce (New "" "https://ca" 1 0 [] 0 0 0) (HeadResponse "fresh")).1.2
  = [].
Proof.
  exact (proj1 (proj2 (Nonce_probe_token_not_pooled
                         (New "" "https://ca" 1 0 [] 0 0 0) "fresh"
                         eq_refl ltac:(discriminate)))).
Defined.

(** ** Run plan *)

(** The trace accumulated so far is only ever extended. *)
Lemma executePlan_fold_acc plan : ∀ s tr,
  foldl (λ acc p,
           (set_throughput acc.1 (Rate p),
            acc.2 ++ [EvStoreThroughput (Rate p); EvLogRate (Rate p) (For p);
                      EvSleep (For p)]))
        (s, tr) plan
  = ((executePlan_over plan s).1, tr ++ (executePlan_over plan s).2).
Proof.
  unfold executePlan_over.
  induction plan as [|p plan IH]; intros s tr; simpl.
  - by rewrite app_nil_r.
  - rewrite (IH _ (tr ++ _)), (IH _ [_; _; _]). simpl.
    by rewrite <- app_assoc.
Qed.

Lemma executePlan_over_cons p plan s :
  executePlan_over (p :: plan) s =
    ((executePlan_over plan (set_throughput s (Rate p))).1,
     [EvStoreThroughput (Rate p); EvLogRate (Rate p) (For p); EvSleep (For p)]
       ++ (executePlan_over plan (set_throughput s (Rate p))).2).
Proof.
  unfold executePlan_over at 1. simpl. by rewrite executePlan_fold_acc.
Qed.

Lemma executePlan_over_spec plan : ∀ s,
  (executePlan_over plan s).2 =
    concat ((λ p, [EvStoreThroughput (Rate p); EvLogRate (Rate p) (For p);
                   EvSleep (For p)]) <$> plan) ∧
  (executePlan_over plan s).1 =
    match last plan with
    | Some p => set_throughput s (Rate p)
    | None => s
    end.
Proof.
  induction plan as [|p plan IH]; intros s; [done|].
  rewrite executePlan_over_cons.
  destruct (IH (set_throughput s (Rate p))) as [IHtr IHs].
  simpl fst. simpl snd. rewrite IHtr, IHs. split; [done|].
  rewrite last_cons. by destruct (last plan).
Qed.

Lemma rate_during_sleeps_segments plan : ∀ rate,
  rate_during_sleeps rate
    (concat ((λ p, [EvStoreThroughput (Rate p); EvLogRate (Rate p) (For p);
                    EvSleep (For p)]) <$> plan))
  = (λ p, (For p, Rate p)) <$> plan.
Proof.
  induction plan as [|p plan IH]; intros rate; [done|].
  simpl. by rewrite IH.
Qed.

(** C8.  The plan executor applies the segments strictly in sequence: for
    each segment, in order, it stores the segment's rate into the shared
    throughput and then sleeps for the segment's duration, so that each
    sleep runs under its own segment's rate; it ends after the last
    segment, and the throughput is then the last rate set (unchanged when
    the plan is empty). *)
Theorem executePlan_sequential s :
  (executePlan s).2 =
    concat ((λ p, [EvStoreThroughput (Rate p); EvLogRate (Rate p) (For p);
                   EvSleep (For p)]) <$> runPlan s) ∧
  rate_during_sleeps (throughput s) (executePlan s).2
    = (λ p, (For p, Rate p)) <$> runPlan s ∧
  (executePlan s).1 =
    match last (runPlan s) with
    | Some p => set_throughput s (Rate p)
    | None => s
    end ∧
  throughput (executePlan s).1
    = default (throughput s) (Rate <$> last (runPlan s)).
Proof.
  unfold executePlan.
  destruct (executePlan_over_spec (runPlan s) s) as [Htr Hs].
  rewrite Htr, Hs, rate_during_sleeps_segments.
  repeat split. by destruct (last (runPlan s)).
Qed.

(** A two-segment plan, as in the specification's example. *)
Example executePlan_two_segments :
  let plan := [{| For := 1000000000; Rate := 5 |};
               {| For := 1000000000; Rate := 50 |}] in
  let s := New "" "" 1 0 plan 0 0 0 in
  rate_during_sleeps 1 (executePlan s).2 = [(1000000000, 5); (1000000000, 50)] ∧
  throughput (executePlan s).1 = 50.
Proof. split; reflexivity. Qed.

(** ** Persistence codec *)

Lemma set_regs_same s : set_regs s (regs s) = s.
Proof. by destruct s. Qed.

Section PersistenceFacts.
Context `{Codec}.

Lemma snapshot_fold rs : ∀ acc,
  foldl (λ acc r, acc ++ [rawRegistration_of r]) acc rs
  = acc ++ (rawRegistration_of <$> rs).
Proof.
  induction rs as [|r rs IH]; intros acc; simpl.
  - by rewrite app_nil_r.
  - rewrite IH. by rewrite <- app_assoc.
Qed.

Lemma snapshot_of_map s :
  Registrations (snapshot_of s) = rawRegistration_of <$> regs s.
Proof. unfold snapshot_of. simpl. by rewrite snapshot_fold. Qed.

(** The loop of [Restore] appends, in document order, the actors of the
    records that can be rebuilt, and nothing else. *)
Lemma restore_loop records : ∀ s,
  foldl restore_step s records
  = set_regs s (regs s ++ omap restore_record records).
Proof.
  induction records as [|r records IH]; intros s; simpl.
  - by rewrite app_nil_r, set_regs_same.
  - rewrite IH. unfold restore_step.
    destruct (restore_record r) as [reg|]; simpl; [|done].
    by rewrite <- app_assoc.
Qed.

(** A failed [Restore] leaves the store as it was. *)
Lemma Restore_error s fs filename err s' :
  Restore s fs filename = (Some err, s') → s' = s.
Proof.
  unfold Restore.
  destruct (fs !! filename) as [content|]; [|by intros [= _ <-]].
  destruct (json_Unmarshal content); [done|by intros [= _ <-]].
Qed.

(** C7.  [Restore] treats each record on its own: a record whose key
    bytes do not parse, or from whose key no signer can be built, is
    skipped and the loop goes on with the records after it; a record
    whose key parses and gets a signer is appended as an actor with that
    key, that signer bound to the engine, the record's certificate ids
    and no authorization, in document order; and the actors present
    before the call stay, unchanged, at the front of the store. *)
Theorem Restore_skips_bad_records s fs filename content snap :
  fs !! filename = Some content →
  json_Unmarshal content = Ok snap →
  Restore s fs filename
    = (None, set_regs s (regs s ++ omap restore_record (Registrations snap))) ∧
  (∀ r err, ParsePKCS1PrivateKey (RawKey r) = Err err →
            restore_record r = None) ∧
  (∀ r key err, ParsePKCS1PrivateKey (RawKey r) = Ok key →
                NewSigner key = Err err → restore_record r = None) ∧
  (∀ r key sg, ParsePKCS1PrivateKey (RawKey r) = Ok key →
               NewSigner key = Ok sg →
               restore_record r
               = Some {| key := key; signer := SetNonceSource sg;
                         auths := []; certs := Certs r |}) ∧
  regs s `prefix_of` regs (Restore s fs filename).2 ∧
  (∀ r key sg, r ∈ Registrations snap →
               ParsePKCS1PrivateKey (RawKey r) = Ok key →
               NewSigner key = Ok sg →
               {| key := key; signer := SetNonceSource sg;
                  auths := []; certs := Certs r |}
               ∈ regs (Restore s fs filename).2) ∧
  (∀ before r after, Registrations snap = before ++ r :: after →
     (∃ err, ParsePKCS1PrivateKey (RawKey r) = Err err) ∨
     (∃ key err, ParsePKCS1PrivateKey (RawKey r) = Ok key ∧
                 NewSigner key = Err err) →
     regs (Restore s fs filename).2
     = regs s ++ omap restore_record before ++ omap restore_record after) ∧
  (∀ before r after content',
     Registrations snap = before ++ r :: after →
     (∃ err, ParsePKCS1PrivateKey (RawKey r) = Err err) ∨
     (∃ key err, ParsePKCS1PrivateKey (RawKey r) = Ok key ∧
                 NewSigner key = Err err) →
     json_Unmarshal content' = Ok {| Registrations := before ++ after |} →
     Restore s (<[filename := content']> fs) filename = Restore s fs filename).
Proof.
  intros Hfile Hdoc.
  assert (∀ r err, ParsePKCS1PrivateKey (RawKey r) = Err err →
                   restore_record r = None) as Hparse.
  { intros r err Herr. unfold restore_record. by rewrite Herr. }
  assert (∀ r key err, ParsePKCS1PrivateKey (RawKey r) = Ok key →
                       NewSigner key = Err err → restore_record r = None)
    as Hsigner.
  { intros r key err Hkey Herr. unfold restore_record. by rewrite Hkey, Herr. }
  assert (∀ r key sg, ParsePKCS1PrivateKey (RawKey r) = Ok key →
                      NewSigner key = Ok sg →
                      restore_record r
                      = Some {| key := key; signer := SetNonceSource sg;
                                auths := []; certs := Certs r |}) as Hgood.
  { intros r key sg Hkey Hsg. unfold restore_record. by rewrite Hkey, Hsg. }
  assert (∀ r,
            (∃ err, ParsePKCS1PrivateKey (RawKey r) = Err err) ∨
            (∃ key err, ParsePKCS1PrivateKey (RawKey r) = Ok key ∧
                        NewSigner key = Err err) →
            restore_record r = None) as Hskip.
  { intros r [[err Herr]|(key & err & Hkey & Herr)]; eauto. }
  assert (Restore s fs filename
          = (None, set_regs s (regs s ++ omap restore_record (Registrations snap))))
    as Hrestore.
  { unfold Restore. by rewrite Hfile, Hdoc, restore_loop. }
  split; [done|]. split; [done|]. split; [done|]. split; [done|].
  rewrite Hrestore. simpl.
  split; [by apply prefix_app_r|]. split; [|split].
  - intros r key sg Hin Hkey Hsg. apply elem_of_app. right.
    apply list_elem_of_omap. eauto.
  - intros before r after -> Hbad.
    rewrite omap_app. simpl. by rewrite (Hskip r Hbad).
  - intros before r after content' Hrecords Hbad Hdoc'.
    unfold Restore at 1. rewrite lookup_insert_eq, Hdoc', restore_loop.
    simpl. rewrite Hrecords, !omap_app. simpl.
    by rewrite (Hskip r Hbad).
Qed.

(** A snapshot holds one record per actor: its certificate ids and its
    marshalled key, and nothing of its authorizations. *)
Lemma Snapshot_ok s fs filename doc :
  json_Marshal (snapshot_of s) = Ok doc →
  Snapshot s fs filename Written = (None, <[filename := doc]> fs).
Proof. intros Hdoc. unfold Snapshot. by rewrite Hdoc. Qed.

(** Restoring a snapshot into any store appends what [restore_record]
    makes of each actor's record. *)
Lemma Snapshot_Restore s s' fs filename doc :
  json_Marshal (snapshot_of s) = Ok doc →
  json_Unmarshal doc = Ok (snapshot_of s) →
  Restore s' (Snapshot s fs filename Written).2 filename
  = (None,
     set_regs s' (regs s' ++ omap (λ r, restore_record (rawRegistration_of r))
                                  (regs s))).
Proof.
  intros Hdoc Hback. rewrite (Snapshot_ok _ _ _ _ Hdoc). simpl.
  unfold Restore. rewrite lookup_insert_eq, Hback, restore_loop.
  rewrite snapshot_of_map.
  assert (omap restore_record (rawRegistration_of <$> regs s)
          = omap (λ r, restore_record (rawRegistration_of r)) (regs s)) as ->;
    [|done].
  induction (regs s) as [|r rs IH]; [done|].
  csimpl. by rewrite IH.
Qed.
End PersistenceFacts.

Lemma Restore_skips_bad_records_witness :
  regs (Restore (H := ByteCodec.codec) Examples.one_actor
          {["state.json" := ByteCodec.put_snapshot Examples.mixed_document]}
          "state.json").2
  = [Examples.tiny_actor;
     {| key := ByteCodec.tiny_key;
        signer := {| signer_key := ByteCodec.tiny_key;
                     signer_nonce_source := true |};
        auths := []; certs := ["c1"; "c2"] |}].
Proof.
  destruct (Restore_skips_bad_records (H := ByteCodec.codec)
              Examples.one_actor
              {["state.json" := ByteCodec.put_snapshot Examples.mixed_document]}
              "state.json"
              (ByteCodec.put_snapshot Examples.mixed_document)
              Examples.mixed_document
              ltac:(apply lookup_singleton_eq) ltac:(reflexivity)) as [-> _].
  reflexivity.
Defined.




(** ** Warmup *)

Section Counting.
Context {A : Type} (P : A → Prop) `{!∀ x, Decision (P x)}.

(** Overwriting one slot moves the count by the difference of the two
    indicators. *)
Lemma count_insert (l : list A) : ∀ i x y,
  l !! i = Some y →
  (length (filter P (<[i := x]> l)) + indicator P y
   = length (filter P l) + indicator P x)%nat.
Proof.
  unfold indicator.
  induction l as [|z l IH]; intros i x y Hi; [done|].
  destruct i as [|i]; simpl in *.
  - injection Hi as ->. rewrite !filter_cons.
    repeat case_decide; simpl; lia.
  - specialize (IH i x y Hi). rewrite !filter_cons.
    repeat case_decide; simpl in *; lia.
Qed.

Lemma elem_of_insert_inv (l : list A) i x y :
  y ∈ <[i := x]> l → y = x ∨ y ∈ l.
Proof.
  intros [j Hj]%list_elem_of_lookup.
  apply list_lookup_insert_Some in Hj as [(_ & -> & _)|[_ Hj]]; [by left|].
  right. by apply list_elem_of_lookup_2 in Hj.
Qed.
End Counting.

Lemma population_addReg s reg : population (addReg s reg) = population s + 1.
Proof. unfold population, addReg. simpl. rewrite length_app. simpl. lia. Qed.

Lemma warm_inv_init s0 :
  population s0 < warmupRegs s0 → warm_inv s0 (warmup_init s0).
Proof.
  intros Hbelow. split; simpl.
  - exists []. by rewrite app_nil_r, set_regs_same.
  - by rewrite length_replicate.
  - unfold creating. simpl.
    pose proof (length_filter (λ st, st = Creating)
                  (replicate (Z.to_nat (warmupWorkers s0)) Checking)).
    lia.
  - intros Hin%elem_of_replicate_inv. done.
Qed.

Lemma warm_inv_step s0 w i created :
  warm_inv s0 w → warm_inv s0 (worker_step w i created).
Proof.
  intros [[added Hstore] Hlen Hover Hfin].
  assert (warmupRegs (w_state w) = warmupRegs s0) as Htarget by by rewrite Hstore.
  unfold worker_step.
  destruct (w_workers w !! i) as [[| |]|] eqn:Hi; [| |by split; eauto..].
  - (* the guarded read *)
    pose proof (count_insert (λ st, st = Creating) (w_workers w) i) as Hcount.
    unfold indicator in Hcount.
    case_decide as Hreached; split; simpl; eauto.
    + by rewrite length_insert.
    + unfold creating in *. simpl. rewrite length_insert.
      specialize (Hcount Finished Checking Hi).
      rewrite !decide_False in Hcount by done. lia.
    + intros _. lia.
    + by rewrite length_insert.
    + unfold creating in *. simpl. rewrite length_insert.
      pose proof (length_filter (λ st, st = Creating) (<[i:=Creating]> (w_workers w))).
      rewrite length_insert in *. lia.
    + intros [?|Hin]%elem_of_insert_inv; [done|]. by apply Hfin.
  - (* the end of a creation attempt *)
    pose proof (count_insert (λ st, st = Creating) (w_workers w) i
                  Checking Creating Hi) as Hcount.
    unfold indicator in Hcount.
    rewrite decide_True, decide_False in Hcount by done.
    assert (population (w_state w)
            ≤ population (newRegistration_attempt (w_state w) created)
            ≤ population (w_state w) + 1) as Hpop.
    { destruct created; simpl; [rewrite population_addReg|]; lia. }
    split; simpl.
    + destruct created as [reg|]; simpl; [|eauto].
      exists (added ++ [reg]). rewrite Hstore. unfold addReg. simpl.
      by rewrite <- app_assoc.
    + by rewrite length_insert.
    + unfold creating in *. simpl. rewrite length_insert. lia.
    + intros [?|Hin]%elem_of_insert_inv; [done|].
      specialize (Hfin Hin). lia.
Qed.

Lemma warm_inv_exec s0 sched : ∀ w,
  warm_inv s0 w → warm_inv s0 (warmup_exec w sched).
Proof.
  induction sched as [|[i created] sched IH]; intros w Hinv; [done|].
  simpl. apply IH. by apply warm_inv_step.
Qed.

(** When warmup returns, the store has reached the target, has overshot
    it by less than the number of workers, and still starts with the
    actors it had. *)
Lemma warmup_returns s sched s' :
  0 < warmupWorkers s → population s < warmupRegs s →
  warmup s sched = Some s' →
  warmupRegs s ≤ population s' ≤ warmupRegs s + warmupWorkers s - 1 ∧
  ∃ added, s' = set_regs s (regs s ++ added).
Proof.
  intros Hworkers Hbelow. unfold warmup.
  case_decide as Hdone; [|done]. intros [= <-].
  destruct (warm_inv_exec s sched _ (warm_inv_init s Hbelow))
    as [Hstore Hlen Hover Hfin].
  split; [|done]. split.
  - apply Hfin.
    destruct (w_workers (warmup_exec (warmup_init s) sched)) as [|st sts] eqn:Hws;
      [simpl in Hlen; lia|].
    unfold all_finished in Hdone. rewrite Hws in Hdone.
    apply Forall_cons in Hdone as [-> _]. left.
  - unfold creating in Hover. rewrite Hlen in Hover. lia.
Qed.

(** A single worker whose attempts all succeed completes warmup, with the
    store exactly at the target. *)
Lemma warmup_single_worker reg n : ∀ s,
  population s + Z.of_nat n = warmupRegs s →
  warmup_exec {| w_state := s; w_workers := [Checking] |}
              (replicate (2 * n + 1) (0%nat, Some reg))
  = {| w_state := set_regs s (regs s ++ replicate n reg);
       w_workers := [Finished] |}.
Proof.
  induction n as [|n IH]; intros s Hpop.
  - simpl. unfold worker_step. simpl.
    rewrite decide_True by lia. by rewrite app_nil_r, set_regs_same.
  - replace (2 * S n + 1)%nat with (S (S (2 * n + 1))) by lia.
    simpl. unfold worker_step at 2. simpl.
    rewrite decide_False by lia.
    unfold worker_step at 1. simpl.
    change (foldl _ ?w ?l) with (warmup_exec w l).
    rewrite IH by (rewrite population_addReg; simpl; lia).
    simpl. by rewrite <- app_assoc.
Qed.

(** *** The cap in the call sender *)

Lemma actionList_positive s reg :
  actionList s reg = [] ∨ 0 < total_weight (actionList s reg).
Proof.
  unfold actionList. destruct reg as [reg|]; repeat case_decide; simpl;
    (by left) || (right; lia).
Qed.

(** The call that [sendCall] makes is one of the listed ones. *)
Lemma sendCall_listed s r_reg r_act call reg :
  sendCall s r_reg r_act = Returns (call, reg) →
  getReg s r_reg = Returns reg ∧ call ∈ action <$> actionList s reg.
Proof.
  unfold sendCall. destruct (getReg s r_reg) as [reg'|]; [|done].
  pose proof (actionList_sublist s reg') as Hsub.
  pose proof (sublist_nonneg_weights _ _ Hsub all_eligible_nonneg) as Hnn.
  pose proof (sublist_total_weight _ _ Hsub all_eligible_nonneg) as Htot.
  rewrite all_eligible_total in Htot.
  destruct (actionList_positive s reg') as [Hnil|Hpos].
  - rewrite Hnil, weightedCall_nil. done.
  - rewrite weightedCall_any_draw by (done || unfold GoInt.max_int; lia).
    destruct (interval_pick _ _) as [call'|] eqn:Hpick; [|done].
    intros [= -> ->]. split; [done|].
    destruct (interval_pick_listed _ _ _ Hpick) as (pp & Hin & <-).
    by apply list_elem_of_fmap_2.
Qed.

(** Create-actor is listed exactly when the cap is zero or not reached. *)
Lemma newRegistration_eligible s reg :
  newRegistration ∈ action <$> actionList s reg ↔
  maxRegs s = 0 ∨ population s < maxRegs s.
Proof.
  unfold actionList. split.
  - case_decide; [done|]. simpl.
    destruct reg as [reg|]; repeat case_decide; simpl;
      rewrite ?elem_of_cons, ?elem_of_nil; intuition discriminate.
  - intros Hcap. rewrite decide_True by done. simpl. left.
Qed.

(** With a positive cap that the store has reached, [sendCall] does not
    make a create-actor call. *)
Lemma sendCall_respects_cap s r_reg r_act call reg :
  0 < maxRegs s → maxRegs s ≤ population s →
  sendCall s r_reg r_act = Returns (call, reg) → call ≠ newRegistration.
Proof.
  intros Hcap Hfull [_ Hin]%sendCall_listed ->.
  apply newRegistration_eligible in Hin. lia.
Qed.

(** The claim as stated fails: with a cap of one actor, a warmup target of
    two and a single worker whose attempts succeed, warmup returns with two
    actors in the store. *)
Lemma warmup_ignores_cap_counterexample :
  0 < maxRegs Examples.capped ∧
  maxRegs Examples.capped ≤ warmupRegs Examples.capped ∧
  ∃ s', warmup Examples.capped (replicate 5 (0%nat, Some Examples.tiny_actor))
        = Some s' ∧
        population s' = 2 ∧
        population s' ≠ maxRegs Examples.capped ∧
        maxRegs Examples.capped < population s'.
Proof.
  split; [done|]. split; [done|].
  eexists. split; [reflexivity|]. done.
Qed.

(** C2, amended.  For a cap N > 0 and a warmup target W ≥ N, warmup does
    not consult the cap: when the warmup phase, entered below the target
    with at least one worker, returns, the population is at least W and at
    most W + workers - 1, and exactly W with a single worker (so it is N
    only when W = N); the actors present before are kept.  From then on a
    [sendCall] that sees a population of at least N never makes a
    create-actor call. *)
Theorem warmup_reaches_target_not_cap s sched s' :
  0 < maxRegs s → maxRegs s ≤ warmupRegs s →
  0 < warmupWorkers s → population s < warmupRegs s →
  warmup s sched = Some s' →
  warmupRegs s ≤ population s' ≤ warmupRegs s + warmupWorkers s - 1 ∧
  (warmupWorkers s = 1 → population s' = warmupRegs s) ∧
  regs s `prefix_of` regs s' ∧
  maxRegs s' = maxRegs s ∧
  (∀ s2 r_reg r_act call reg,
     maxRegs s2 = maxRegs s → population s' ≤ population s2 →
     sendCall s2 r_reg r_act = Returns (call, reg) → call ≠ newRegistration).
Proof.
  intros Hcap Htarget Hworkers Hbelow Hdone.
  destruct (warmup_returns s sched s' Hworkers Hbelow Hdone)
    as [Hpop [added ->]].
  split; [done|]. split; [lia|]. split; [by apply prefix_app_r|].
  split; [done|].
  intros s2 r_reg r_act call reg Hcap2 Hpop2.
  apply sendCall_respects_cap; lia.
Qed.

Lemma warmup_reaches_target_not_cap_witness :
  ∃ s', warmup Examples.capped (replicate 5 (0%nat, Some Examples.tiny_actor))
        = Some s' ∧
        2 ≤ population s' ≤ 2.
Proof.
  eexists. split; [reflexivity|].
  exact (proj1 (warmup_reaches_target_not_cap Examples.capped
                  (replicate 5 (0%nat, Some Examples.tiny_actor)) _
                  ltac:(done) ltac:(done) ltac:(done) ltac:(done) eq_refl)).
Defined.

(** ** Run *)

(** Warmup only ever appends to the store. *)
Lemma worker_step_store w i created :
  ∃ added,
    w_state (worker_step w i created)
    = set_regs (w_state w) (regs (w_state w) ++ added).
Proof.
  unfold worker_step.
  destruct (w_workers w !! i) as [[| |]|]; [case_decide| | |]; simpl;
    try (exists []; by rewrite app_nil_r, set_regs_same).
  destruct created as [reg|]; simpl.
  - by exists [reg].
  - exists []. by rewrite app_nil_r, set_regs_same.
Qed.

Lemma warmup_exec_store sched : ∀ w,
  ∃ added,
    w_state (warmup_exec w sched)
    = set_regs (w_state w) (regs (w_state w) ++ added).
Proof.
  induction sched as [|[i created] sched IH]; intros w; simpl.
  - exists []. by rewrite app_nil_r, set_regs_same.
  - destruct (IH (worker_step w i created)) as [added2 ->].
    destruct (worker_step_store w i created) as [added1 ->].
    exists (added1 ++ added2). simpl. by rewrite <- app_assoc.
Qed.

(** The head of [Run] starts no task and touches neither the process
    handle nor the stop timestamp. *)
Lemma run_begin_frame env s s1 tr1 :
  run_begin env s = Some (s1, tr1) →
  (tr1 = [] ∨ tr1 = [EvWarmup]) ∧
  challSrvProc s1 = challSrvProc s ∧
  runPlan s1 = runPlan s ∧
  Stopped (callLatency s1) = Stopped (callLatency s).
Proof.
  unfold run_begin, run_warmup. case_decide.
  - unfold warmup. case_decide; [|done]. intros [= <- <-].
    destruct (warmup_exec_store (env_warmup env)
                (warmup_init (set_callLatency s
                   (set_Started (callLatency s) (env_started env)))))
      as [added ->].
    simpl. auto.
  - intros [= <- <-]. simpl. auto.
Qed.

(** With no zero throughput read, the sending loop runs until it sees the
    stop signal, spawning one call per iteration. *)
Lemma send_loop_returns rates :
  Forall (λ rate, rate ≠ 0) rates →
  ∃ tr, send_loop rates = (Returns (), tr) ∧
        Forall (λ ev, ev = EvWgAdd ∨ ev = EvGo TaskSendCall ∨ ∃ d, ev = EvSleep d) tr ∧
        length (filter (λ ev, ev = EvGo TaskSendCall) tr) = length rates.
Proof.
  induction 1 as [|rate rates Hrate _ (tr & IH & Hshape & Hcount)]; simpl.
  - exists []. split; [done|]. split; [constructor|done].
  - rewrite decide_False by done. rewrite IH.
    eexists. split; [done|]. split.
    + repeat (constructor; [eauto|]). done.
    + cbn [app]. rewrite filter_cons_False by done.
      rewrite filter_cons_True by done.
      rewrite filter_cons_False by done. simpl. by rewrite Hcount.
Qed.

(** C9.  When the challenge server does not start, [Run] returns the start
    error at once: the run-plan task is not started, the sending loop is not
    entered, no call is spawned, and the process handle is left as it
    was. *)
Theorem Run_start_failure_aborts env s binName httpOneAddr err s1 tr1 :
  run_begin env s = Some (s1, tr1) →
  env_start env = Err err →
  Run env s binName false httpOneAddr
    = (RunReturns (Some err), s1,
       tr1 ++ [EvStartProcess binName
                 ["chall-srv"; "--rpcAddr=" +:+ challRPCAddr s1;
                  "--httpOneAddr=" +:+ httpOneAddr]]) ∧
  (∀ t, EvGo t ∉ (Run env s binName false httpOneAddr).2) ∧
  (EvWgAdd ∉ (Run env s binName false httpOneAddr).2) ∧
  challSrvProc s1 = challSrvProc s.
Proof.
  intros Hbegin Hstart.
  destruct (run_begin_frame env s s1 tr1 Hbegin) as (Htr1 & Hproc & _ & _).
  assert (Run env s binName false httpOneAddr
          = (RunReturns (Some err), s1,
             tr1 ++ [EvStartProcess binName
                       ["chall-srv"; "--rpcAddr=" +:+ challRPCAddr s1;
                        "--httpOneAddr=" +:+ httpOneAddr]])) as ->.
  { unfold Run. rewrite Hbegin. unfold run_start. by rewrite Hstart. }
  split; [done|]. simpl.
  split; [intros t|split; [|done]];
    destruct Htr1 as [-> | ->]; simpl;
    rewrite ?elem_of_cons, elem_of_nil; intuition discriminate.
Qed.

Lemma Run_start_failure_aborts_witness :
  Run Examples.no_start Examples.fresh "boulder" false "0.0.0.0:5002"
  = (RunReturns (Some "exec: not found"),
     set_callLatency Examples.fresh
       {| Started := Some 0; Stopped := None; samples := [] |},
     [EvStartProcess "boulder"
        ["chall-srv"; "--rpcAddr=127.0.0.1:9998"; "--httpOneAddr=0.0.0.0:5002"]]).
Proof.
  exact (proj1 (Run_start_failure_aborts Examples.no_start Examples.fresh
                  "boulder" "0.0.0.0:5002" "exec: not found" _ []
                  eq_refl eq_refl)).
Defined.

(** When the challenge server has been started, [Run] goes through the
    whole shutdown sequence and returns nil, whether or not the kill
    fails. *)
Lemma Run_with_challSrv_completes env s binName httpOneAddr proc s1 tr1 :
  run_begin env s = Some (s1, tr1) →
  env_start env = Ok proc →
  Forall (λ rate, rate ≠ 0) (env_rates env) →
  ∃ tr,
    Run env s binName false httpOneAddr
    = (RunReturns None,
       set_callLatency (set_challSrvProc s1 (Some proc))
         (set_Stopped (callLatency s1) (env_stopped env)),
       tr ++ [EvPrintln "SLEEP END"; EvStopSignal; EvPrintln "SENT STOP";
              EvWgWait; EvPrintln "KILLING CHALL SERVER"; EvKill proc]
          ++ match env_kill env with
             | Some err => [EvLogKillError err]
             | None => []
             end
          ++ [EvPrintln "ALL DONE"]).
Proof.
  intros Hbegin Hstart Hrates.
  destruct (send_loop_returns _ Hrates) as (tr5 & Hloop & _).
  unfold Run. rewrite Hbegin. unfold run_start. rewrite Hstart, Hloop.
  unfold run_shutdown. cbn [challSrvProc set_challSrvProc].
  set (started := [EvStartProcess binName
                     ["chall-srv"; "--rpcAddr=" +:+ challRPCAddr s1;
                      "--httpOneAddr=" +:+ httpOneAddr]]).
  set (plan := if decide (0 < length (runPlan (set_challSrvProc s1 (Some proc))))%nat
               then [EvGo TaskExecutePlan] else []).
  set (loop := [EvGo TaskSendLoop; EvSleep (runtime (set_challSrvProc s1 (Some proc)))]).
  exists (tr1 ++ started ++ plan ++ loop ++ tr5).
  f_equal. rewrite <- !app_assoc. done.
Qed.

(** C6.  When the challenge server is skipped, [Run] does not complete the
    shutdown sequence: after the run time has elapsed, the stop signal has
    been sent and the in-flight calls have been awaited, it calls [Kill]
    through the nil process handle and panics, so the stop timestamp is
    never written and no result is returned. *)
Theorem Run_without_challSrv_panics env s binName httpOneAddr s1 tr1 :
  challSrvProc s = None →
  run_begin env s = Some (s1, tr1) →
  Forall (λ rate, rate ≠ 0) (env_rates env) →
  ∃ tr,
    Run env s binName true httpOneAddr
    = (RunPanics "invalid memory address or nil pointer dereference", s1,
       tr ++ [EvPrintln "SLEEP END"; EvStopSignal; EvPrintln "SENT STOP";
              EvWgWait; EvPrintln "KILLING CHALL SERVER"]) ∧
    Stopped (callLatency s1) = Stopped (callLatency s).
Proof.
  intros Hnil Hbegin Hrates.
  destruct (run_begin_frame env s s1 tr1 Hbegin) as (_ & Hproc & _ & Hstopped).
  destruct (send_loop_returns _ Hrates) as (tr5 & Hloop & _).
  unfold Run. rewrite Hbegin. unfold run_start. rewrite Hloop.
  unfold run_shutdown. rewrite Hproc, Hnil.
  set (plan := if decide (0 < length (runPlan s1))%nat
               then [EvGo TaskExecutePlan] else []).
  set (loop := [EvGo TaskSendLoop; EvSleep (runtime s1)]).
  exists (tr1 ++ plan ++ loop ++ tr5).
  split; [|done]. f_equal. rewrite <- !app_assoc. done.
Qed.

Lemma Run_without_challSrv_panics_witness :
  ∃ tr,
    Run Examples.calm Examples.fresh "boulder" true "0.0.0.0:5002"
    = (RunPanics "invalid memory address or nil pointer dereference",
       set_callLatency Examples.fresh
         {| Started := Some 0; Stopped := None; samples := [] |},
       tr ++ [EvPrintln "SLEEP END"; EvStopSignal; EvPrintln "SENT STOP";
              EvWgWait; EvPrintln "KILLING CHALL SERVER"]).
Proof.
  destruct (Run_without_challSrv_panics Examples.calm Examples.fresh
              "boulder" "0.0.0.0:5002" _ [] eq_refl eq_refl
              ltac:(repeat constructor; discriminate)) as (tr & Hrun & _).
  exists tr. exact Hrun.
Defined.

(** * Further properties *)

(** ** Weighted selection beyond the four-entry table *)

Lemma interval_pick_positive {A} (setup : list (probabilityProfile A)) k a :
  interval_pick setup k = Some a →
  ∃ pp, pp ∈ setup ∧ action pp = a ∧ 0 < prob pp.
Proof.
  revert k. induction setup as [|qq rest IH]; intros k; simpl; [done|].
  case_decide.
  - intros [= <-]. exists qq. split; [left|]. split; [done|lia].
  - intros (pp & Hin & Heq & Hpos)%IH. exists pp. split; [by right|done].
Qed.

(** For any list of non-negative weights whose total fits in an [int]:
    an index below the total selects the entry whose cumulative interval
    holds it; the number of indices that select an action is the sum of
    the weights listed for it; and whatever is drawn, the entry selected
    has a positive weight. *)
Theorem weightedCall_any_table {A} `{EqDecision A}
    (setup : list (probabilityProfile A)) :
  nonneg_weights setup → total_weight setup ≤ GoInt.max_int →
  (∀ k, 0 ≤ k < total_weight setup →
     weightedCall setup k = Returns (interval_pick setup k)) ∧
  (∀ a, Z.of_nat (hits setup a) = weight_of a setup) ∧
  (∀ r, 0 < total_weight setup →
     ∃ pp, pp ∈ setup ∧ 0 < prob pp ∧
           weightedCall setup r = Returns (Some (action pp))).
Proof.
  intros Hnn Hmax. split; [|split].
  - intros k Hk. by apply weightedCall_interval.
  - intros a. by apply hits_weight.
  - intros r Hpos. rewrite weightedCall_any_draw by done.
    destruct (interval_pick_inside setup (r `mod` total_weight setup) Hnn)
      as [a Ha]; [by apply Z.mod_pos_bound|].
    destruct (interval_pick_positive _ _ _ Ha) as (pp & Hin & <- & Hpp).
    exists pp. by rewrite Ha.
Qed.

Lemma weightedCall_any_table_witness :
  weightedCall Samples.repeated 3 = Returns (Some "a") ∧
  hits Samples.repeated "a" = 5%nat ∧
  hits Samples.repeated "b" = 0%nat.
Proof.
  destruct (weightedCall_any_table Samples.repeated
              ltac:(repeat constructor; simpl; lia)
              ltac:(unfold GoInt.max_int; simpl; lia)) as (Hpick & Hhits & _).
  split; [|split].
  - rewrite (Hpick 3) by (simpl; lia). reflexivity.
  - apply Nat2Z.inj. rewrite Hhits. reflexivity.
  - apply Nat2Z.inj. rewrite Hhits. reflexivity.
Defined.

Lemma fill_choices_non_empty {A} (choices : gmap Z A) n (pp : probabilityProfile A) :
  choices ≠ ∅ ∨ 0 < prob pp → fill_choices choices n pp ≠ ∅.
Proof.
  unfold fill_choices.
  assert (∀ l (ch : gmap Z A), ch ≠ ∅ ∨ l ≠ [] →
            foldl (λ ch i, <[GoInt.add i n := action pp]> ch) ch l ≠ ∅) as Hfold.
  { induction l as [|i l IH]; intros ch Hne; simpl.
    - by destruct Hne.
    - apply IH. left. apply insert_non_empty. }
  intros [Hne|Hpos]; apply Hfold; [by left|right].
  rewrite seqZ_cons by done. done.
Qed.

Lemma build_from_non_empty {A} (setup : list (probabilityProfile A)) :
  ∀ choices n,
    choices ≠ ∅ ∨ (∃ pp, pp ∈ setup ∧ 0 < prob pp) →
    (build_from (choices, n) setup).1 ≠ ∅.
Proof.
  induction setup as [|pp rest IH]; intros choices n Hne.
  - destruct Hne as [Hne|(pp & Hin & _)]; [done|by apply elem_of_nil in Hin].
  - unfold build_from. simpl. change (foldl _ ?acc rest) with (build_from acc rest).
    apply IH.
    destruct Hne as [Hne|(qq & [->|Hin]%elem_of_cons & Hpos)].
    + left. apply fill_choices_non_empty. by left.
    + left. apply fill_choices_non_empty. by right.
    + right. eauto.
Qed.

(** A list with a positive weight whose running total does not end above
    zero makes [weightedCall] panic in [mrand.Intn]. *)
Theorem weightedCall_non_positive_total_panics {A}
    (setup : list (probabilityProfile A)) r pp :
  pp ∈ setup → 0 < prob pp →
  (build_choices setup).2 ≤ 0 →
  weightedCall setup r = Panics "invalid argument to Intn".
Proof.
  intros Hin Hpos Htotal. unfold weightedCall.
  rewrite decide_False.
  - unfold GoInt.Intn. by rewrite decide_True.
  - rewrite map_size_empty_iff. apply build_from_non_empty. eauto.
Qed.

Lemma weightedCall_non_positive_total_panics_witness :
  weightedCall Samples.negative_total 0 = Panics "invalid argument to Intn".
Proof.
  apply (weightedCall_non_positive_total_panics Samples.negative_total 0
           (ProbabilityProfile 3 "a")).
  - left.
  - simpl. lia.
  - vm_compute. discriminate.
Defined.

(** ** The store and the call sender *)

(** [getReg] never panics: it reports not-found exactly on an empty
    store, and otherwise returns the stored actor at the drawn index
    reduced modulo the population. *)
Theorem getReg_draws_a_member s r :
  (regs s = [] → getReg s r = Returns None) ∧
  (regs s ≠ [] →
   ∃ reg, getReg s r = Returns (Some reg) ∧
          regs s !! Z.to_nat (r `mod` population s) = Some reg ∧
          reg ∈ regs s).
Proof.
  split; [apply getReg_empty|]. intros Hne.
  unfold getReg. rewrite decide_False.
  - assert (0 < population s) as Hpos.
    { unfold population. destruct (regs s); [done|simpl; lia]. }
    pose proof (Z.mod_pos_bound r _ Hpos) as Hi.
    unfold GoInt.Intn. rewrite decide_False by lia.
    destruct (lookup_lt_is_Some_2 (regs s) (Z.to_nat (r `mod` population s)))
      as [reg Hreg]; [unfold population in *; lia|].
    rewrite Hreg. exists reg. split; [done|]. split; [done|].
    by apply list_elem_of_lookup_2 in Hreg.
  - unfold population. destruct (regs s); [done|simpl; lia].
Qed.

Lemma getReg_draws_a_member_witness :
  getReg Samples.two_actors 7 = Returns (Some Samples.bare_actor).
Proof.
  destruct (proj2 (getReg_draws_a_member Samples.two_actors 7)
              ltac:(discriminate)) as (reg & -> & Hreg & _).
  vm_compute in Hreg. by injection Hreg as <-.
Defined.

(** [addReg] puts the actor at the end of the store: the population grows
    by one, a draw equal to the former population returns the new actor,
    and every actor already stored stays at its index. *)
Theorem addReg_then_getReg s reg :
  population (addReg s reg) = population s + 1 ∧
  getReg (addReg s reg) (population s) = Returns (Some reg) ∧
  (∀ i old, regs s !! i = Some old →
            getReg (addReg s reg) (Z.of_nat i) = Returns (Some old)).
Proof.
  split; [apply population_addReg|].
  assert (∀ i x, (regs s ++ [reg]) !! i = Some x →
                 getReg (addReg s reg) (Z.of_nat i) = Returns (Some x)) as Hget.
  { intros i x Hi. unfold getReg. rewrite population_addReg.
    pose proof (lookup_lt_Some _ _ _ Hi) as Hlt. rewrite length_app in Hlt.
    simpl in Hlt. unfold population.
    rewrite decide_False by lia.
    rewrite GoIntFacts.Intn_in_range by lia.
    rewrite Nat2Z.id. simpl. by rewrite Hi. }
  split.
  - unfold population at 1. apply Hget.
    rewrite lookup_app_r by done. by rewrite Nat.sub_diag.
  - intros i old Hi. apply Hget. by apply lookup_app_l_Some.
Qed.

Lemma addReg_then_getReg_witness :
  getReg (addReg Samples.two_actors Samples.bare_actor) 0
  = Returns (Some Examples.tiny_actor).
Proof.
  exact (proj2 (proj2 (addReg_then_getReg Samples.two_actors Samples.bare_actor))
           0%nat Examples.tiny_actor eq_refl).
Defined.

Lemma actionList_methods s reg call :
  call ∈ action <$> actionList s reg →
  match call with
  | newRegistration => maxRegs s = 0 ∨ population s < maxRegs s
  | newAuthorization => is_Some reg
  | newCertificate => ∃ r, reg = Some r ∧ auths r ≠ []
  | revokeCertificate => ∃ r, reg = Some r ∧ certs r ≠ []
  end.
Proof.
  unfold actionList.
  destruct reg as [r|]; repeat case_decide; simpl;
    rewrite ?elem_of_cons, ?elem_of_nil; intros Hin;
    destruct call; try (intuition discriminate); eauto;
    exists r; (split; [done|]); intros Hnil; rewrite Hnil in *; simpl in *; lia.
Qed.

(** Every call [sendCall] makes is one its argument allows: create-actor
    only while the cap is zero or not reached, and the three per-actor
    calls only on an actor of the store, the certificate call only if that
    actor holds an authorization and the revocation only if it holds a
    certificate. *)
Theorem sendCall_call_is_allowed s r_reg r_act call reg :
  sendCall s r_reg r_act = Returns (call, reg) →
  (∀ r, reg = Some r → r ∈ regs s) ∧
  match call with
  | newRegistration => maxRegs s = 0 ∨ population s < maxRegs s
  | newAuthorization => is_Some reg
  | newCertificate => ∃ r, reg = Some r ∧ auths r ≠ []
  | revokeCertificate => ∃ r, reg = Some r ∧ certs r ≠ []
  end.
Proof.
  intros [Hreg Hin]%sendCall_listed. split.
  - intros r ->.
    destruct (getReg_returns s r_reg) as (reg' & Hget & Hnone).
    rewrite Hget in Hreg. injection Hreg as ->.
    unfold getReg in Hget. case_decide; [done|].
    destruct (GoInt.Intn _ _); [|done].
    destruct (regs s !! Z.to_nat a) as [x|] eqn:Hx; [|done].
    injection Hget as ->. by apply list_elem_of_lookup_2 in Hx.
  - by apply actionList_methods.
Qed.

Lemma sendCall_call_is_allowed_witness :
  ∃ r, sendCall Samples.two_actors 0 9 = Returns (revokeCertificate, Some r) ∧
       certs r ≠ [].
Proof.
  destruct (sendCall_call_is_allowed Samples.two_actors 0 9
              revokeCertificate (Some Examples.tiny_actor) eq_refl)
    as [_ (r & Hr & Hcerts)].
  exists r. injection Hr as <-. split; [reflexivity|exact Hcerts].
Defined.

Lemma sendCall_returns_witness :
  ∃ call reg, sendCall Samples.two_actors 1 0 = Returns (call, reg) ∧
              call ∈ action <$> actionList Samples.two_actors reg.
Proof.
  exact (sendCall_returns Samples.two_actors 1 0 ltac:(simpl; lia)).
Defined.

(** ** Nonces carried by responses *)

Lemma probes_in_app tr1 tr2 :
  probes_in (tr1 ++ tr2) = (probes_in tr1 + probes_in tr2)%nat.
Proof. unfold probes_in. by rewrite filter_app, length_app. Qed.

Lemma Nonce_empty_pool_stays_empty s probe :
  noncePool s = [] →
  noncePool (Nonce s probe).1.2 = [] ∧ probes_in (Nonce s probe).2 = 1%nat.
Proof.
  intros Hpool.
  destruct (Nonce_refill s probe Hpool) as (res & state & -> & _).
  simpl. by rewrite Hpool.
Qed.

(** Over a run of takes with no response in between, the pooled tokens
    are used first and every further take costs exactly one request: the
    number of requests is the number of takes beyond the pooled tokens, and
    the pool is left with the tokens not taken. *)
Theorem Nonce_many_requests probes : ∀ s,
  probes_in (Nonce_many s probes).2
    = (length probes - length (noncePool s))%nat ∧
  noncePool (Nonce_many s probes).1.2 = drop (length probes) (noncePool s) ∧
  take (length (noncePool s)) (Nonce_many s probes).1.1
    = Ok <$> take (length probes) (noncePool s).
Proof.
  induction probes as [|probe probes IH]; intros s.
  - simpl. by destruct (noncePool s).
  - simpl. destruct (noncePool s) as [|nonce rest] eqn:Hpool.
    + destruct (Nonce_empty_pool_stays_empty s probe Hpool) as [Hstill Hone].
      destruct (Nonce s probe) as [[r s1] tr1] eqn:Hnonce. simpl in *.
      destruct (IH s1) as (IHn & IHpool & _).
      destruct (Nonce_many s1 probes) as [[rs s2] tr2]. simpl in *.
      rewrite probes_in_app, Hone, IHn, IHpool, Hstill. simpl.
      split; [lia|]. split; [by rewrite drop_nil|done].
    + rewrite (Nonce_pop s nonce rest probe Hpool).
      destruct (IH (set_noncePool s rest)) as (IHn & IHpool & IHres).
      destruct (Nonce_many (set_noncePool s rest) probes) as [[rs s2] tr2].
      simpl in *. split; [done|]. split; [done|]. by rewrite IHres.
Qed.

Lemma Nonce_many_requests_witness :
  probes_in (Nonce_many (addNonce Examples.fresh "n1")
               [HeadError "down"; HeadResponse "n2"; HeadResponse ""]).2
  = 2%nat.
Proof.
  exact (proj1 (Nonce_many_requests
                  [HeadError "down"; HeadResponse "n2"; HeadResponse ""]
                  (addNonce Examples.fresh "n1"))).
Defined.

(** A nonce that comes with a response is pooled behind the tokens already
    there, even when the client reports an error with the response; a
    request that cannot be built, a missing response or an empty header
    leave the pool as it was. *)
Theorem post_pools_the_response_nonce s newRequest resp err :
  noncePool (post s newRequest resp err).2
  = match newRequest, resp with
    | None, Some r =>
        if decide (resp_replayNonce r ≠ "")
        then noncePool s ++ [resp_replayNonce r] else noncePool s
    | _, _ => noncePool s
    end.
Proof.
  unfold post, post_nonce.
  destruct newRequest as [e|]; [done|].
  destruct resp as [r|]; simpl.
  - case_decide; by destruct err.
  - by destruct err.
Qed.

(** After a response has delivered a nonce to an empty pool, the next take
    returns that nonce without a request and empties the pool. *)
Theorem post_then_Nonce s r err probe :
  noncePool s = [] → resp_replayNonce r ≠ "" →
  Nonce (post s None (Some r) err).2 probe
  = (Ok (resp_replayNonce r), set_noncePool s [], []).
Proof.
  intros Hpool Hnonce.
  assert ((post s None (Some r) err).2 = addNonce s (resp_replayNonce r)) as ->.
  { unfold post, post_nonce. simpl. rewrite decide_True by done. by destruct err. }
  unfold Nonce, addNonce. simpl. by rewrite Hpool.
Qed.

Lemma post_then_Nonce_witness :
  Nonce (post Examples.fresh None
           (Some {| resp_status := 201; resp_replayNonce := "n7" |})
           (Some "unexpected EOF")).2 (HeadError "down")
  = (Ok "n7", Examples.fresh, []).
Proof.
  exact (post_then_Nonce Examples.fresh
           {| resp_status := 201; resp_replayNonce := "n7" |}
           (Some "unexpected EOF") (HeadError "down")
           eq_refl ltac:(discriminate)).
Defined.

(** ** More on the persistence codec *)

Section PersistenceMore.
Context `{Codec}.

(** Round trip for a whole store: if every stored key survives the
    PKCS#1 codec and [NewSigner] builds a signer for it ([signer_for]),
    the document survives the JSON codec, and the file is written, then
    restoring the snapshot into any store appends one actor per
    snapshotted actor, in the same order, with its key and certificate
    ids and without its authorization ids. *)
Theorem Snapshot_Restore_whole_store s s' fs filename doc
    (signer_for : PrivateKey → Signer) :
  Forall (λ r, ParsePKCS1PrivateKey (MarshalPKCS1PrivateKey (key r)) = Ok (key r)
               ∧ NewSigner (key r) = Ok (signer_for (key r))) (regs s) →
  json_Marshal (snapshot_of s) = Ok doc →
  json_Unmarshal doc = Ok (snapshot_of s) →
  Restore s' (Snapshot s fs filename Written).2 filename
  = (None,
     set_regs s'
       (regs s' ++ ((λ r, {| key := key r;
                             signer := SetNonceSource (signer_for (key r));
                             auths := []; certs := certs r |}) <$> regs s))).
Proof.
  intros Hkeys Hdoc Hback.
  rewrite (Snapshot_Restore s s' fs filename doc Hdoc Hback).
  do 3 f_equal.
  induction Hkeys as [|r rs [Hkey Hsigner] _ IH]; [done|].
  csimpl. rewrite IH.
  unfold restore_record, rawRegistration_of. simpl.
  by rewrite Hkey, Hsigner.
Qed.

(** [Restore] is not idempotent: restoring the same file twice appends
    its actors twice. *)
Theorem Restore_twice_appends_twice s fs filename content snap :
  fs !! filename = Some content →
  json_Unmarshal content = Ok snap →
  regs (Restore (Restore s fs filename).2 fs filename).2
  = regs s ++ omap restore_record (Registrations snap)
           ++ omap restore_record (Registrations snap).
Proof.
  intros Hfile Hdoc. unfold Restore. rewrite Hfile, Hdoc. simpl.
  rewrite !restore_loop. simpl. by rewrite <- app_assoc.
Qed.

(** [Restore] fails exactly when the file is missing or is not a
    snapshot document, and a failed [Restore] leaves the store as it
    was. *)
Theorem Restore_fails_without_effect s fs filename :
  (∀ err s', Restore s fs filename = (Some err, s') → s' = s) ∧
  ((∃ err, (Restore s fs filename).1 = Some err) ↔
   fs !! filename = None ∨
   ∃ content err, fs !! filename = Some content ∧
                  json_Unmarshal content = Err err).
Proof.
  split; [intros err s'; apply Restore_error|].
  unfold Restore.
  destruct (fs !! filename) as [content|];
    [|split; [by left|intros _; by eexists]].
  destruct (json_Unmarshal content) as [snap|err] eqn:Hdoc; simpl.
  - split; [by intros [? ?]|].
    intros [?|(c & e & [= <-] & He)]; [done|]. by rewrite Hdoc in He.
  - split; [|by eauto]. intros _. right. eauto.
Qed.

(** [Snapshot] touches its target file and no other, whether the write
    succeeds or fails; it returns the error of a failed write; a document
    that cannot be marshalled leaves the file system alone; and only
    when the document is marshalled and the write succeeds does it
    return no error, the target then holding the document in place of
    what it held before. *)
Theorem Snapshot_touches_only_its_file s fs filename write :
  (∀ other, other ≠ filename →
            (Snapshot s fs filename write).2 !! other = fs !! other) ∧
  (∀ err, json_Marshal (snapshot_of s) = Err err →
          Snapshot s fs filename write = (Some err, fs)) ∧
  (∀ doc err remains, json_Marshal (snapshot_of s) = Ok doc →
          write = WriteFails err remains →
          (Snapshot s fs filename write).1 = Some err ∧
          (Snapshot s fs filename write).2 !! filename = remains) ∧
  ((Snapshot s fs filename write).1 = None ↔
   write = Written ∧ ∃ doc, json_Marshal (snapshot_of s) = Ok doc ∧
                            (Snapshot s fs filename write).2 !! filename
                            = Some doc).
Proof.
  unfold Snapshot. split; [|split; [|split]].
  - intros other Hother.
    destruct (json_Marshal (snapshot_of s)); simpl; [|done].
    destruct write as [|err [partial|]]; simpl.
    + by rewrite lookup_insert_ne.
    + by rewrite lookup_insert_ne.
    + by rewrite lookup_delete_ne.
  - by intros err ->.
  - intros doc err remains -> ->. simpl. split; [done|].
    destruct remains as [partial|]; simpl.
    + by rewrite lookup_insert_eq.
    + by rewrite lookup_delete_eq.
  - destruct (json_Marshal (snapshot_of s)) as [doc|err]; simpl.
    + destruct write as [|err remains]; simpl.
      * split; [|done]. intros _. split; [done|].
        exists doc. by rewrite lookup_insert_eq.
      * split; [done|]. by intros [? _].
    + split; [done|]. by intros (_ & doc & ? & _).
Qed.
End PersistenceMore.

Lemma Snapshot_Restore_whole_store_witness :
  regs (Restore (H := ByteCodec.codec) Examples.fresh
          (Snapshot (H := ByteCodec.codec) Samples.two_actors ∅ "state.json"
             Written).2
          "state.json").2
  = [{| key := key Examples.tiny_actor; signer := signer Examples.tiny_actor;
        auths := []; certs := ["c1"; "c2"] |};
     Samples.bare_actor].
Proof.
  rewrite (Snapshot_Restore_whole_store (H := ByteCodec.codec)
             Samples.two_actors Examples.fresh ∅ "state.json"
             (ByteCodec.put_snapshot
                (snapshot_of (H := ByteCodec.codec) Samples.two_actors))
             (λ k, {| signer_key := k; signer_nonce_source := false |})
             ltac:(repeat constructor) eq_refl eq_refl).
  reflexivity.
Defined.

Lemma Restore_twice_appends_twice_witness :
  length (regs (Restore (H := ByteCodec.codec)
                  (Restore (H := ByteCodec.codec) Examples.fresh
                     {["state.json" :=
                         ByteCodec.put_snapshot Examples.mixed_document]}
                     "state.json").2
                  {["state.json" := ByteCodec.put_snapshot Examples.mixed_document]}
                  "state.json").2)
  = 2%nat.
Proof.
  rewrite (Restore_twice_appends_twice (H := ByteCodec.codec) Examples.fresh
             {["state.json" := ByteCodec.put_snapshot Examples.mixed_document]}
             "state.json" (ByteCodec.put_snapshot Examples.mixed_document)
             Examples.mixed_document
             ltac:(apply lookup_singleton_eq) eq_refl).
  reflexivity.
Defined.

Lemma Restore_fails_without_effect_witness :
  Restore (H := ByteCodec.codec) Samples.two_actors ∅ "missing.json"
  = (Some "open: no such file or directory", Samples.two_actors).
Proof.
  destruct (Restore (H := ByteCodec.codec) Samples.two_actors ∅ "missing.json")
    as [[err|] s'] eqn:Hrestore; [|discriminate].
  rewrite (proj1 (Restore_fails_without_effect (H := ByteCodec.codec)
                    Samples.two_actors ∅ "missing.json") err s' Hrestore).
  f_equal. by injection Hrestore as <- _.
Defined.

Lemma Snapshot_touches_only_its_file_witness :
  (Snapshot (H := ByteCodec.codec) Samples.two_actors
     {["other.json" := [Byte.x00]]} "state.json"
     (WriteFails "no space left on device" (Some []))).2 !! "other.json"
  = Some [Byte.x00].
Proof.
  etrans.
  - apply (proj1 (Snapshot_touches_only_its_file (H := ByteCodec.codec)
                    Samples.two_actors {["other.json" := [Byte.x00]]}
                    "state.json" (WriteFails "no space left on device" (Some [])))
             "other.json").
    discriminate.
  - apply lookup_singleton_eq.
Defined.

(** ** More on Run *)

Lemma spawned_app tr1 tr2 : spawned (tr1 ++ tr2) = (spawned tr1 + spawned tr2)%nat.
Proof. unfold spawned. by rewrite filter_app, length_app. Qed.

Lemma registered_app tr1 tr2 :
  registered (tr1 ++ tr2) = (registered tr1 + registered tr2)%nat.
Proof. unfold registered. by rewrite filter_app, length_app. Qed.

(** While no throughput read is zero, the sending loop does, for each
    iteration in turn, exactly this: it registers a call with the wait
    group, then spawns the call, then sleeps a second divided by the
    throughput it has just read (in integer arithmetic); so it spawns and
    registers one call per iteration. *)
Theorem send_loop_paces_calls rates :
  Forall (λ rate, rate ≠ 0) rates →
  send_loop rates
  = (Returns (),
     concat ((λ rate, [EvWgAdd; EvGo TaskSendCall;
                       EvSleep (1000000000 `quot` rate)]) <$> rates)) ∧
  spawned (send_loop rates).2 = length rates ∧
  registered (send_loop rates).2 = length rates ∧
  sleeps (send_loop rates).2 = (λ rate, 1000000000 `quot` rate) <$> rates.
Proof.
  induction 1 as [|rate rates Hrate _ (IHtr & IHsp & IHreg & IHsl)]; [done|].
  simpl. rewrite decide_False by done.
  rewrite IHtr in *. simpl in *.
  split; [done|].
  unfold spawned, registered in *.
  rewrite !filter_cons. repeat case_decide; try done. simpl.
  by rewrite IHsp, IHreg, IHsl.
Qed.

Lemma send_loop_paces_calls_witness :
  send_loop [5; -4]
  = (Returns (),
     [EvWgAdd; EvGo TaskSendCall; EvSleep 200000000;
      EvWgAdd; EvGo TaskSendCall; EvSleep (-250000000)]).
Proof.
  exact (proj1 (send_loop_paces_calls [5; -4]
                  ltac:(repeat constructor; discriminate))).
Defined.

(** A throughput read as zero makes the sending loop panic on the division,
    after it has spawned the call of that iteration. *)
Lemma send_loop_zero good rest :
  Forall (λ rate, rate ≠ 0) good →
  (send_loop (good ++ 0 :: rest)).1 = Panics "integer divide by zero" ∧
  spawned (send_loop (good ++ 0 :: rest)).2 = S (length good) ∧
  (EvStopSignal ∉ (send_loop (good ++ 0 :: rest)).2).
Proof.
  induction 1 as [|rate good Hrate _ (IHres & IHsp & IHstop)]; simpl.
  - split; [done|]. split; [done|].
    rewrite !elem_of_cons, elem_of_nil. intuition discriminate.
  - rewrite decide_False by done.
    destruct (send_loop (good ++ 0 :: rest)) as [res tr]. simpl in *.
    split; [done|]. split.
    + unfold spawned in *. cbn [app].
      rewrite !filter_cons. repeat case_decide; try done. simpl. by rewrite IHsp.
    + rewrite !elem_of_cons. intuition discriminate.
Qed.

(** If the throughput is read as zero during a run, [Run] does not reach
    its shutdown: the process panics with a division by zero after the
    calls of the iterations so far have been spawned; no stop signal is
    sent and the stop timestamp stays unset. *)
Theorem Run_zero_throughput_panics env s binName skip httpOneAddr
    s1 tr1 proc good rest :
  run_begin env s = Some (s1, tr1) →
  env_start env = Ok proc →
  env_rates env = good ++ 0 :: rest →
  Forall (λ rate, rate ≠ 0) good →
  (Run env s binName skip httpOneAddr).1.1 = RunPanics "integer divide by zero" ∧
  spawned (Run env s binName skip httpOneAddr).2 = S (length good) ∧
  (EvStopSignal ∉ (Run env s binName skip httpOneAddr).2) ∧
  Stopped (callLatency (Run env s binName skip httpOneAddr).1.2)
    = Stopped (callLatency s).
Proof.
  intros Hbegin Hstart Hrates Hgood.
  destruct (run_begin_frame env s s1 tr1 Hbegin) as (Htr1 & _ & _ & Hstopped).
  destruct (send_loop_zero good rest Hgood) as (Hres & Hsp & Hstop).
  assert (spawned tr1 = 0%nat ∧ EvStopSignal ∉ tr1) as [Hsp1 Hstop1].
  { destruct Htr1 as [-> | ->]; (split; [done|]);
      rewrite ?elem_of_cons, ?elem_of_nil; intuition discriminate. }
  assert (∀ s2 tr2,
            spawned tr2 = 0%nat → EvStopSignal ∉ tr2 →
            Stopped (callLatency s2) = Stopped (callLatency s) →
            run_start env s1 binName skip httpOneAddr = (Ok s2, tr2) →
            (Run env s binName skip httpOneAddr).1.1
              = RunPanics "integer divide by zero" ∧
            spawned (Run env s binName skip httpOneAddr).2 = S (length good) ∧
            (EvStopSignal ∉ (Run env s binName skip httpOneAddr).2) ∧
            Stopped (callLatency (Run env s binName skip httpOneAddr).1.2)
              = Stopped (callLatency s)) as Hrun.
  { intros s2 tr2 Hsp2 Hstop2 Hstopped2 Hstarted.
    unfold Run. rewrite Hbegin, Hstarted, Hrates.
    destruct (send_loop (good ++ 0 :: rest)) as [res tr5].
    cbn [fst snd] in Hres, Hsp, Hstop. subst res. cbn [fst snd].
    split; [done|].
    set (plan := if decide (0 < length (runPlan s2))%nat
                 then [EvGo TaskExecutePlan] else []).
    assert (spawned plan = 0%nat ∧ EvStopSignal ∉ plan) as [Hsp3 Hstop3].
    { unfold plan. case_decide; (split; [done|]);
        rewrite ?elem_of_cons, ?elem_of_nil; intuition discriminate. }
    split; [|split; [|done]].
    - rewrite !spawned_app, Hsp1, Hsp2, Hsp3, Hsp. done.
    - rewrite !elem_of_app, !elem_of_cons, elem_of_nil.
      intuition discriminate. }
  unfold run_start in Hrun. rewrite Hstart in Hrun.
  destruct skip.
  - apply (Hrun s1 []); try done. apply not_elem_of_nil.
  - refine (Hrun _ _ _ _ _ eq_refl); [done| |by simpl].
    rewrite elem_of_cons, elem_of_nil. intuition discriminate.
Qed.

Lemma Run_zero_throughput_panics_witness :
  (Run Samples.stalls Examples.fresh "boulder" false "0.0.0.0:5002").1.1
  = RunPanics "integer divide by zero" ∧
  spawned (Run Samples.stalls Examples.fresh "boulder" false "0.0.0.0:5002").2
  = 2%nat.
Proof.
  destruct (Run_zero_throughput_panics Samples.stalls Examples.fresh "boulder"
              false "0.0.0.0:5002" _ [] {| Pid := 4242 |} [5] [5]
              eq_refl eq_refl eq_refl ltac:(repeat constructor; discriminate))
    as (Hres & Hsp & _).
  split; [exact Hres|exact Hsp].
Defined.





(** ** More on warmup *)

(** With no worker configured, warmup returns at once and creates
    nothing, however far the store is below the target. *)
Theorem warmup_without_workers s sched :
  warmupWorkers s ≤ 0 → warmup s sched = Some s.
Proof.
  intros Hnone.
  assert (warmup_init s = {| w_state := s; w_workers := [] |}) as Hinit.
  { unfold warmup_init. by replace (Z.to_nat (warmupWorkers s)) with 0%nat by lia. }
  assert (warmup_exec {| w_state := s; w_workers := [] |} sched
          = {| w_state := s; w_workers := [] |}) as Hexec.
  { induction sched as [|[i created] sched IH]; [done|]. simpl.
    unfold worker_step at 1. simpl. exact IH. }
  unfold warmup. rewrite Hinit, Hexec.
  rewrite decide_True; [done|]. constructor.
Qed.

Lemma warmup_without_workers_witness :
  warmup Samples.no_workers [(0%nat, Some Samples.bare_actor)]
  = Some Samples.no_workers ∧
  population Samples.no_workers < warmupRegs Samples.no_workers.
Proof.
  split; [|done].
  apply (warmup_without_workers Samples.no_workers). done.
Defined.

(** A single worker whose attempts all succeed finishes warmup after as
    many creations as the store was short of the target, with the store
    exactly at the target. *)
Theorem warmup_one_worker_completes s reg :
  warmupWorkers s = 1 → population s ≤ warmupRegs s →
  warmup s (replicate (2 * Z.to_nat (warmupRegs s - population s) + 1)
                      (0%nat, Some reg))
  = Some (set_regs s (regs s ++ replicate
                                  (Z.to_nat (warmupRegs s - population s)) reg)) ∧
  population (set_regs s (regs s ++ replicate
                                      (Z.to_nat (warmupRegs s - population s)) reg))
  = warmupRegs s.
Proof.
  intros Hone Hbelow. split.
  - unfold warmup, warmup_init. rewrite Hone.
    change (replicate (Z.to_nat 1) Checking) with [Checking].
    rewrite warmup_single_worker by lia.
    rewrite decide_True; [done|]. by repeat constructor.
  - unfold population in *. simpl. rewrite length_app, length_replicate. lia.
Qed.

Lemma warmup_one_worker_completes_witness :
  warmup Samples.one_worker (replicate 7 (0%nat, Some Samples.bare_actor))
  = Some (set_regs Samples.one_worker (replicate 3 Samples.bare_actor)).
Proof.
  exact (proj1 (warmup_one_worker_completes Samples.one_worker
                  Samples.bare_actor eq_refl ltac:(done))).
Defined.

(** While every creation attempt fails, warmup does not return: below the
    target, with at least one worker, no interleaving of failed attempts
    lets a worker leave its loop, and the store stays as it was. *)
Theorem warmup_retries_forever s sched :
  0 < warmupWorkers s → population s < warmupRegs s →
  Forall (λ mv, mv.2 = None) sched →
  warmup s sched = None ∧
  w_state (warmup_exec (warmup_init s) sched) = s.
Proof.
  intros Hworkers Hbelow Hfail.
  assert (∀ w, w_state w = s → Finished ∉ w_workers w →
               length (w_workers w) = Z.to_nat (warmupWorkers s) →
               let w' := warmup_exec w sched in
               w_state w' = s ∧ (Finished ∉ w_workers w') ∧
               length (w_workers w') = Z.to_nat (warmupWorkers s)) as Hinv.
  { induction Hfail as [|[i created] sched Hnone _ IH]; intros w Hs Hfin Hlen;
      [done|].
    simpl in Hnone. subst created. simpl. apply IH.
    - unfold worker_step.
      destruct (w_workers w !! i) as [[| |]|]; [case_decide|..]; by simpl.
    - unfold worker_step.
      destruct (w_workers w !! i) as [[| |]|] eqn:Hi; [case_decide|..]; simpl;
        try done.
      + rewrite Hs in *. lia.
      + intros [?|?]%elem_of_insert_inv; done.
      + intros [?|?]%elem_of_insert_inv; done.
    - unfold worker_step.
      destruct (w_workers w !! i) as [[| |]|]; [case_decide|..]; simpl;
        by rewrite ?length_insert. }
  destruct (Hinv (warmup_init s)) as (Hs & Hfin & Hlen).
  - done.
  - simpl. by intros ?%elem_of_replicate_inv.
  - simpl. by rewrite length_replicate.
  - split; [|done]. unfold warmup. rewrite decide_False; [done|].
    intros Hall. apply Hfin. unfold all_finished in Hall.
    destruct (w_workers (warmup_exec (warmup_init s) sched)) as [|st sts];
      [simpl in Hlen; lia|].
    apply Forall_cons in Hall as [-> _]. left.
Qed.

Lemma warmup_retries_forever_witness :
  warmup Samples.two_workers
         [(0%nat, None); (1%nat, None); (0%nat, None); (0%nat, None)]
  = None.
Proof.
  exact (proj1 (warmup_retries_forever Samples.two_workers
                  [(0%nat, None); (1%nat, None); (0%nat, None); (0%nat, None)]
                  ltac:(done) ltac:(done) ltac:(repeat constructor))).
Defined.

Lemma replicate_snoc {A} (x : A) k l :
  replicate k x ++ x :: l = replicate (S k) x ++ l.
Proof. induction k as [|k IH]; [done|]. simpl. by rewrite IH. Qed.

(** One move of every worker of a block that stands at [old], when such a
    move takes a worker to [new] and the state through [g]. *)
Lemma warmup_exec_sweep (P : State → Prop) (g : State → State)
    (old new : worker) (created : option registration) :
  (∀ s ws i, P s → ws !! i = Some old →
             worker_step {| w_state := s; w_workers := ws |} i created
             = {| w_state := g s; w_workers := <[i := new]> ws |}) →
  (∀ s, P s → P (g s)) →
  ∀ count first s,
    P s →
    warmup_exec {| w_state := s;
                   w_workers := replicate first new ++ replicate count old |}
                (sweep first count created)
    = {| w_state := Nat.iter count g s;
         w_workers := replicate (first + count) new |}.
Proof.
  intros Hstep Hkeep. induction count as [|count IH]; intros first s HP.
  - simpl. by rewrite app_nil_r, Nat.add_0_r.
  - unfold sweep. simpl. change (foldl _ ?w ?l) with (warmup_exec w l).
    rewrite Hstep; [|done|].
    + rewrite insert_app_r_alt by (by rewrite length_replicate).
      rewrite length_replicate, Nat.sub_diag. simpl.
      rewrite replicate_snoc.
      change ((λ i, (i, created)) <$> seq (S first) count)
        with (sweep (S first) count created).
      rewrite IH by auto.
      f_equal; [|f_equal; lia].
      clear. induction count as [|count IH]; [done|]. simpl. by rewrite IH.
    + rewrite lookup_app_r by (by rewrite length_replicate).
      by rewrite length_replicate, Nat.sub_diag.
Qed.

Lemma warmup_exec_app w sched1 sched2 :
  warmup_exec w (sched1 ++ sched2) = warmup_exec (warmup_exec w sched1) sched2.
Proof. unfold warmup_exec. by rewrite foldl_app. Qed.

Lemma iter_addReg reg n s :
  Nat.iter n (λ s, addReg s reg) s = set_regs s (regs s ++ replicate n reg).
Proof.
  induction n as [|n IH]; simpl.
  - by rewrite app_nil_r, set_regs_same.
  - rewrite IH. unfold addReg. simpl. f_equal.
    rewrite <- app_assoc. f_equal.
    clear. induction n as [|n IH]; [done|]. simpl. by rewrite IH.
Qed.

Lemma iter_id {A} n (x : A) : Nat.iter n (λ y, y) x = x.
Proof. induction n as [|n IH]; [done|]. simpl. by rewrite IH. Qed.

(** The overshoot is real: when every worker reads the population before
    any of them has registered its actor, each of them creates one, so a
    store that is below the target and within one round of it ends with as
    many new actors as there are workers; from one short of the target
    that is the target plus the number of workers minus one. *)
Theorem warmup_race_overshoots s reg :
  0 < warmupWorkers s →
  population s < warmupRegs s →
  warmupRegs s ≤ population s + warmupWorkers s →
  warmup s (race (Z.to_nat (warmupWorkers s)) reg)
  = Some (set_regs s (regs s ++ replicate (Z.to_nat (warmupWorkers s)) reg)) ∧
  population (set_regs s (regs s ++ replicate (Z.to_nat (warmupWorkers s)) reg))
  = population s + warmupWorkers s.
Proof.
  intros Hworkers Hbelow Hround.
  set (n := Z.to_nat (warmupWorkers s)).
  set (s' := set_regs s (regs s ++ replicate n reg)).
  assert (population s' = population s + warmupWorkers s) as Hpop.
  { unfold population, s', n. simpl. rewrite length_app, length_replicate. lia. }
  split; [|done].
  unfold warmup, race. rewrite !warmup_exec_app.
  (* every worker reads a population below the target *)
  assert (warmup_exec (warmup_init s) (sweep 0 n None)
          = {| w_state := s; w_workers := replicate n Creating |}) as ->.
  { unfold warmup_init. fold n.
    pose proof (warmup_exec_sweep (λ st, st = s) (λ st, st) Checking Creating None)
      as Hsweep.
    specialize (Hsweep
      ltac:(intros st ws i -> Hi; unfold worker_step; simpl;
            rewrite Hi; by rewrite decide_False by lia)
      ltac:(done) n 0%nat s eq_refl).
    cbn [replicate app Nat.add] in Hsweep. rewrite Hsweep. by rewrite iter_id. }
  (* every worker registers its actor *)
  assert (warmup_exec {| w_state := s; w_workers := replicate n Creating |}
                      (sweep 0 n (Some reg))
          = {| w_state := s'; w_workers := replicate n Checking |}) as ->.
  { pose proof (warmup_exec_sweep (λ _, True) (λ st, addReg st reg)
                  Creating Checking (Some reg)) as Hsweep.
    specialize (Hsweep
      ltac:(intros st ws i _ Hi; unfold worker_step; simpl; by rewrite Hi)
      ltac:(done) n 0%nat s I).
    cbn [replicate app Nat.add] in Hsweep. rewrite Hsweep. by rewrite iter_addReg. }
  (* every worker reads a population at or above the target *)
  assert (warmup_exec {| w_state := s'; w_workers := replicate n Checking |}
                      (sweep 0 n None)
          = {| w_state := s'; w_workers := replicate n Finished |}) as ->.
  { pose proof (warmup_exec_sweep (λ st, st = s') (λ st, st) Checking Finished None)
      as Hsweep.
    specialize (Hsweep
      ltac:(intros st ws i -> Hi; unfold worker_step; simpl;
            rewrite Hi; rewrite decide_True; [done|];
            change (warmupRegs s') with (warmupRegs s); lia)
      ltac:(done) n 0%nat s' eq_refl).
    cbn [replicate app Nat.add] in Hsweep. rewrite Hsweep. by rewrite iter_id. }
  rewrite decide_True; [done|].
  unfold all_finished. simpl. by apply Forall_replicate.
Qed.

Lemma warmup_race_overshoots_witness :
  warmup Samples.one_short (race 3 Samples.bare_actor)
  = Some (set_regs Samples.one_short (replicate 6 Samples.bare_actor)) ∧
  warmupRegs Samples.one_short + warmupWorkers Samples.one_short - 1 = 6.
Proof.
  split; [|done].
  exact (proj1 (warmup_race_overshoots Samples.one_short Samples.bare_actor
                  ltac:(done) ltac:(done) ltac:(done))).
Defined.

(** ** Authorization tables *)

Module AuthzFacts.
Import Authz.

Lemma count_char_append c s1 s2 :
  count_char c (s1 +:+ s2) = (count_char c s1 + count_char c s2)%nat.
Proof.
  induction s1 as [|c' s1 IH]; [done|]. simpl. rewrite IH. lia.
Qed.

Lemma placeholders_append s1 s2 :
  placeholders (s1 +:+ s2) = (placeholders s1 + placeholders s2)%nat.
Proof. apply count_char_append. Qed.

Lemma placeholders_Join n :
  placeholders (Join (replicate n "?") ", ") = n.
Proof.
  induction n as [|[|n] IH]; [done..|].
  change (replicate (S (S n)) "?") with ("?" :: replicate (S n) "?").
  change (Join ("?" :: replicate (S n) "?") ", ")
    with ("?" +:+ ", " +:+ Join (replicate (S n) "?") ", ").
  rewrite !placeholders_append, IH. done.
Qed.

Section QueryFacts.
Context `{AcmeStatuses}.

Lemma stmtArgs_of_cons first values :
  stmtArgs_of first values = first :: values.
Proof.
  unfold stmtArgs_of.
  assert (∀ acc, foldl (λ acc v, acc ++ [v]) acc values = acc ++ values)
    as Hfold.
  { induction values as [|v values IH]; intros acc; simpl.
    - by rewrite app_nil_r.
    - rewrite IH. by rewrite <- app_assoc. }
  by rewrite Hfold.
Qed.

Lemma qmarks_of_replicate (values : list string) :
  qmarks_of values = replicate (length values) "?".
Proof.
  unfold qmarks_of.
  assert (∀ acc, foldl (λ acc (_ : string), acc ++ ["?"]) acc values
                 = acc ++ replicate (length values) "?") as Hfold.
  { induction values as [|v values IH]; intros acc; simpl.
    - by rewrite app_nil_r.
    - rewrite IH. by rewrite <- app_assoc. }
  by rewrite Hfold.
Qed.

Lemma placeholders_in_list (values : list string) :
  placeholders (in_list values) = length values.
Proof.
  unfold in_list.
  rewrite !placeholders_append, qmarks_of_replicate, placeholders_Join.
  change (placeholders "(") with 0%nat. change (placeholders ")") with 0%nat.
  lia.
Qed.

(** Every statement binds exactly the arguments it is run with: the
    number of [?] in its text is the number of arguments, for any id
    list and any table name free of [?]; the arguments are the first
    value followed by the listed ones, in order.  For an empty id
    list the revoking statement ends in an empty [IN ()]. *)
Theorem statements_bind_their_arguments tableName :
  placeholders tableName = 0%nat →
  (∀ id, placeholders (countPending_query tableName)
         = length (stmtArgs_of id pendingStatuses)) ∧
  (∀ id, placeholders existingFinal_query
         = length (stmtArgs_of id pendingStatuses)) ∧
  (∀ authIDs,
     placeholders (revoke_query tableName authIDs)
     = length (stmtArgs_of StatusRevoked authIDs) ∧
     stmtArgs_of StatusRevoked authIDs = StatusRevoked :: authIDs) ∧
  revoke_query tableName []
  = "UPDATE " +:+ tableName +:+ nl +:+ "       SET status = ?" +:+ nl
    +:+ "       WHERE id IN ()".
Proof.
  intros Hname. split; [|split; [|split]].
  - intros id. unfold countPending_query.
    rewrite !placeholders_append, placeholders_in_list, Hname,
      stmtArgs_of_cons.
    reflexivity.
  - intros id. unfold existingFinal_query.
    rewrite !placeholders_append, placeholders_in_list, stmtArgs_of_cons.
    reflexivity.
  - intros authIDs. rewrite stmtArgs_of_cons. split; [|done].
    unfold revoke_query.
    rewrite !placeholders_append, placeholders_in_list, Hname.
    reflexivity.
  - reflexivity.
Qed.

(** [countPending] adds up what the two tables report and reads a
    failed query as no row: for counts as a database returns them,
    [existingPending] holds exactly when some table answers with a
    positive count, and it is false when no table can be read. *)
Theorem existingPending_reads_errors_as_absence (tx : SelectOne) id :
  (∀ query args n, tx query args = Ok n → 0 ≤ n < 2 ^ 62) →
  countPending tx id
  = held (tx (countPending_query "authz") (id :: pendingStatuses))
    + held (tx (countPending_query "pendingAuthorizations")
               (id :: pendingStatuses)) ∧
  (existingPending tx id = true ↔
   ∃ table n, table ∈ authorizationTables ∧
              tx (countPending_query table) (id :: pendingStatuses) = Ok n ∧
              0 < n) ∧
  ((∀ table, ∃ err,
      tx (countPending_query table) (id :: pendingStatuses) = Err err) →
   existingPending tx id = false).
Proof.
  intros Hbound.
  assert (∀ query args, 0 ≤ held (tx query args) < 2 ^ 62) as Hheld.
  { intros query args. unfold held.
    destruct (tx query args) as [n|err] eqn:Htx; [eauto|lia]. }
  assert (countPending tx id
          = held (tx (countPending_query "authz") (id :: pendingStatuses))
            + held (tx (countPending_query "pendingAuthorizations")
                       (id :: pendingStatuses))) as Hcount.
  { unfold countPending, authorizationTables. cbn [foldl].
    rewrite !stmtArgs_of_cons.
    pose proof (Hheld (countPending_query "authz") (id :: pendingStatuses)).
    pose proof (Hheld (countPending_query "pendingAuthorizations")
                      (id :: pendingStatuses)).
    rewrite (GoIntFacts.add_small 0)
      by (unfold GoInt.min_int, GoInt.max_int; lia).
    rewrite GoIntFacts.add_small
      by (unfold GoInt.min_int, GoInt.max_int; lia).
    lia. }
  split; [done|].
  unfold existingPending. rewrite Hcount.
  pose proof (Hheld (countPending_query "authz") (id :: pendingStatuses)) as H1.
  pose proof (Hheld (countPending_query "pendingAuthorizations")
                    (id :: pendingStatuses)) as H2.
  split.
  - rewrite bool_decide_eq_true. unfold authorizationTables. split.
    + intros Hpos.
      destruct (decide (0 < held (tx (countPending_query "authz")
                                     (id :: pendingStatuses)))) as [Hp|Hp].
      * exists "authz". unfold held in Hp.
        destruct (tx (countPending_query "authz") (id :: pendingStatuses))
          as [n|]; [|lia].
        exists n. split; [left|done].
      * exists "pendingAuthorizations".
        assert (0 < held (tx (countPending_query "pendingAuthorizations")
                             (id :: pendingStatuses))) as Hq by lia.
        unfold held in Hq.
        destruct (tx (countPending_query "pendingAuthorizations")
                     (id :: pendingStatuses)) as [n|]; [|lia].
        exists n. split; [right; left|done].
    + intros (table & n & Hin & Htx & Hn).
      rewrite !elem_of_cons, elem_of_nil in Hin.
      destruct Hin as [->|[->|[]]]; rewrite Htx in *; simpl in *; lia.
  - intros Hdown.
    destruct (Hdown "authz") as [e1 ->].
    destruct (Hdown "pendingAuthorizations") as [e2 ->].
    by apply bool_decide_eq_false.
Qed.
End QueryFacts.

Lemma statements_bind_their_arguments_witness :
  placeholders (revoke_query "authz" ["x1"; "x2"; "x3"])
  = 4%nat.
Proof.
  destruct (statements_bind_their_arguments (H := core_statuses) "authz" eq_refl)
    as (_ & _ & Hrevoke & _).
  rewrite (proj1 (Hrevoke ["x1"; "x2"; "x3"])). reflexivity.
Defined.

Lemma existingPending_reads_errors_as_absence_witness :
  countPending (H := core_statuses) Samples.legacy_down "x1" = 2 ∧
  existingPending (H := core_statuses) Samples.all_down "x1" = false.
Proof.
  split.
  - rewrite (proj1 (existingPending_reads_errors_as_absence
                      (H := core_statuses) Samples.legacy_down "x1"
                      ltac:(intros query args n; unfold Samples.legacy_down;
                            case_decide; [intros [= <-]; lia|discriminate]))).
    reflexivity.
  - apply (proj2 (proj2 (existingPending_reads_errors_as_absence
                           (H := core_statuses) Samples.all_down "x1"
                           ltac:(discriminate)))).
    intros table. by eexists.
Defined.
End AuthzFacts.

(** ** Validity-date lint *)

Module LintFacts.
Import Lint.

(** A date is in order when it is not a GeneralizedTime, or decodes to an
    instant not before 2050. *)
Lemma check_date_None G d :
  check_date G d = None ↔
  (date_type d = 24 → ∃ t, date_decoded d = Instant t ∧ G ≤ t).
Proof.
  unfold check_date. case_decide as Htype.
  - destruct (date_decoded d) as [| |t]; [split; [done|]..|].
    + intros Hok. by destruct (Hok Htype) as (? & ? & ?).
    + intros Hok. by destruct (Hok Htype) as (? & ? & ?).
    + case_decide; split; try done.
      * intros Hok. destruct (Hok Htype) as (t' & [= <-] & Hle). lia.
      * intros _ _. exists t. split; [done|lia].
  - split; [by intros _ ?|done].
Qed.

(** The lint passes exactly when neither validity date is a
    GeneralizedTime that fails to decode or lies before 2050; dates that
    are not GeneralizedTime are never looked at. *)
Theorem Execute_pass_iff G d1 d2 :
  (Execute G d1 d2 = Pass ↔
   (date_type d1 = 24 → ∃ t, date_decoded d1 = Instant t ∧ G ≤ t) ∧
   (date_type d2 = 24 → ∃ t, date_decoded d2 = Instant t ∧ G ≤ t)) ∧
  (date_type d1 ≠ 24 → date_type d2 ≠ 24 → Execute G d1 d2 = Pass).
Proof.
  assert (Execute G d1 d2 = Pass ↔
          check_date G d1 = None ∧ check_date G d2 = None) as Hpass.
  { unfold Execute.
    destruct (check_date G d1) as [st1|] eqn:H1.
    - split; [|by intros [? ?]]. intros ->.
      unfold check_date in H1. repeat case_match; done.
    - destruct (check_date G d2) as [st2|] eqn:H2; [|done].
      split; [|by intros [? ?]]. intros ->.
      unfold check_date in H2. repeat case_match; done. }
  split.
  - by rewrite Hpass, !check_date_None.
  - intros Hn1 Hn2. apply Hpass. rewrite !check_date_None. done.
Qed.

Lemma Execute_pass_iff_witness :
  Execute Samples.year2050 Samples.utc_2049 Samples.generalized_2051 = Pass.
Proof.
  apply (proj1 (Execute_pass_iff Samples.year2050 Samples.utc_2049
                  Samples.generalized_2051)).
  split; [discriminate|].
  intros _. exists 2560000000. split; [reflexivity|]. done.
Defined.

(** The first date decides: when it is a GeneralizedTime before 2050 the
    lint reports an error, and when it is one that does not decode the
    lint is fatal, whatever the second date; the second date is reported
    the same way only when the first is in order. *)
Theorem Execute_reports_first_offence G d1 d2 :
  (Execute G d1 d2 = Error ↔
   (date_type d1 = 24 ∧ ∃ t, date_decoded d1 = Instant t ∧ t < G) ∨
   (check_date G d1 = None ∧
    date_type d2 = 24 ∧ ∃ t, date_decoded d2 = Instant t ∧ t < G)) ∧
  (Execute G d1 d2 = Fatal ↔
   (date_type d1 = 24 ∧ ∀ t, date_decoded d1 ≠ Instant t) ∨
   (check_date G d1 = None ∧
    date_type d2 = 24 ∧ ∀ t, date_decoded d2 ≠ Instant t)).
Proof.
  assert (∀ d, (check_date G d = Some Error ↔
                date_type d = 24 ∧ ∃ t, date_decoded d = Instant t ∧ t < G) ∧
               (check_date G d = Some Fatal ↔
                date_type d = 24 ∧ ∀ t, date_decoded d ≠ Instant t) ∧
               check_date G d ≠ Some Pass) as Hcheck.
  { intros d. unfold check_date. case_decide as Htype.
    - destruct (date_decoded d) as [| |t].
      + split; [|split; [|done]]; split; try done.
        by intros (_ & ? & ? & _).
      + split; [|split; [|done]]; split; try done.
        by intros (_ & ? & ? & _).
      + case_decide; (split; [|split; [|done]]); split; try done.
        * intros _. eauto.
        * intros [_ Hno]. by destruct (Hno t).
        * intros (_ & t' & [= <-] & Hlt). lia.
        * intros [_ Hno]. by destruct (Hno t).
    - split; [|split; [|done]]; split; try done; by intros [? _]. }
  unfold Execute.
  destruct (Hcheck d1) as (He1 & Hf1 & Hp1).
  destruct (Hcheck d2) as (He2 & Hf2 & Hp2).
  destruct (check_date G d1) as [st1|] eqn:H1.
  - split; split.
    + intros ->. left. by apply He1.
    + intros [Hl|[? _]]; [|done]. apply He1 in Hl. by injection Hl.
    + intros ->. left. by apply Hf1.
    + intros [Hl|[? _]]; [|done]. apply Hf1 in Hl. by injection Hl.
  - destruct (check_date G d2) as [st2|] eqn:H2.
    + split; split.
      * intros ->. right. split; [done|]. by apply He2.
      * intros [Hl|[_ Hr]]; [by apply He1 in Hl|].
        apply He2 in Hr. by injection Hr.
      * intros ->. right. split; [done|]. by apply Hf2.
      * intros [Hl|[_ Hr]]; [by apply Hf1 in Hl|].
        apply Hf2 in Hr. by injection Hr.
    + split; split; try done.
      * intros [Hl|[_ Hr]]; [by apply He1 in Hl|by apply He2 in Hr].
      * intros [Hl|[_ Hr]]; [by apply Hf1 in Hl|by apply Hf2 in Hr].
Qed.

Lemma Execute_reports_first_offence_witness :
  Execute Samples.year2050 Samples.generalized_2049 Samples.generalized_broken
  = Error.
Proof.
  apply (proj1 (Execute_reports_first_offence Samples.year2050
                  Samples.generalized_2049 Samples.generalized_broken)).
  left. split; [reflexivity|].
  exists 2500000000. split; [reflexivity|]. done.
Defined.
End LintFacts.
